(** * ecl2df.gruptree2df: the group-tree extractor, embedded in Rocq

    The development follows [src/ecl2df/gruptree2df.py]:

    - [PyDate]    the part of Python's [datetime.date] the extractor uses;
    - [PyDict]    insertion-ordered dictionaries (the edge accumulator);
    - [Frame]     the fragment of pandas used for the GRUPNET table;
    - [deck2df]   the keyword scan, as explicit state passing in an
                  outcome monad (returned value, [return None] after a
                  critical log, or a raised exception);
    - [gruptreedf2dict]  the edge list to nested dictionary conversion,
                  with the shared [subtrees] store made explicit;
    - [dict2treelib]  the nested dictionary to [treelib.Tree] conversion,
                  over the fragment [Treelib] of that library;

    and [src/ecl2df/eclfiles.py]:

    - [rreplace], [EclFiles_init], [get_rstfilename]  the base name of a
                  case, over the string operations of [PyStr];
    - [get_zonemap]  the layer to zone dictionary read from a zone file. *)

From Stdlib Require Import ZArith Lia Ascii.
From stdpp Require Import base option list sorting strings gmap sets.

Local Open Scope string_scope.
Local Open Scope list_scope.
Local Open Scope Z_scope.

(** ** Outcomes of a Python call *)

Inductive pyexc := TypeError | ValueError | KeyError | OverflowError.

(** [Ok v]: normal completion with [v].
    [Fatal days]: [logging.critical("Invalid TSTEP, summed to {} days")]
    followed by a bare [return], so the caller receives [None].
    [Raise e]: an exception propagates to the caller. *)
Inductive outcome (A : Type) :=
  | Ok (v : A)
  | Fatal (days : Z)
  | Raise (e : pyexc).
Arguments Ok {A} v.
Arguments Fatal {A} days.
Arguments Raise {A} e.

#[global] Instance outcome_ret : MRet outcome := fun _ v => Ok v.
#[global] Instance outcome_bind : MBind outcome := fun _ _ f m =>
  match m with
  | Ok v => f v
  | Fatal d => Fatal d
  | Raise e => Raise e
  end.

(** A Python [for] loop whose body may return early or raise. *)
Fixpoint for_each {A S : Type} (body : S → A → outcome S) (xs : list A) (s : S)
  : outcome S :=
  match xs with
  | [] => Ok s
  | x :: xs' => s' ← body s x; for_each body xs' s'
  end.

(** ** datetime.date

    A [datetime.date] is represented by its proleptic Gregorian ordinal
    ([date.toordinal()]); equality and ordering of dates are equality and
    ordering of ordinals, and [date + timedelta(days=n)] is computed by
    Python on the ordinal as well. *)
Module PyDate.

Definition MINYEAR : Z := 1.
Definition MAXYEAR : Z := 9999.
Definition MAXORDINAL : Z := 3652059.

Definition is_leap (year : Z) : bool :=
  (year mod 4 =? 0) && (negb (year mod 100 =? 0) || (year mod 400 =? 0)).

Definition DAYS_IN_MONTH (month : Z) : Z :=
  match month with
  | 1 => 31 | 2 => 28 | 3 => 31 | 4 => 30 | 5 => 31 | 6 => 30
  | 7 => 31 | 8 => 31 | 9 => 30 | 10 => 31 | 11 => 30 | 12 => 31
  | _ => 0
  end.

Definition DAYS_BEFORE_MONTH (month : Z) : Z :=
  match month with
  | 1 => 0 | 2 => 31 | 3 => 59 | 4 => 90 | 5 => 120 | 6 => 151
  | 7 => 181 | 8 => 212 | 9 => 243 | 10 => 273 | 11 => 304 | 12 => 334
  | _ => 0
  end.

Definition days_before_year (year : Z) : Z :=
  let y := year - 1 in y * 365 + y / 4 - y / 100 + y / 400.

Definition days_in_month (year month : Z) : Z :=
  if (month =? 2) && is_leap year then 29 else DAYS_IN_MONTH month.

Definition days_before_month (year month : Z) : Z :=
  DAYS_BEFORE_MONTH month + (if (2 <? month) && is_leap year then 1 else 0).

Definition ymd2ord (year month day : Z) : Z :=
  days_before_year year + days_before_month year month + day.

(** [datetime.date(year=, month=, day=)]: [ValueError] on a field out of
    range. *)
Definition date (year month day : Z) : outcome Z :=
  if (MINYEAR <=? year) && (year <=? MAXYEAR)
     && (1 <=? month) && (month <=? 12)
     && (1 <=? day) && (day <=? days_in_month year month)
  then Ok (ymd2ord year month day)
  else Raise ValueError.

(** [d + datetime.timedelta(days=n)]: [OverflowError] when the result
    leaves the supported range. *)
Definition add_days (d n : Z) : outcome Z :=
  let o := d + n in
  if (0 <? o) && (o <=? MAXORDINAL) then Ok o else Raise OverflowError.

(** [datetime.date(year=1900, month=1, day=1)] *)
Definition epoch1900 : Z := ymd2ord 1900 1 1.

End PyDate.

(** ** Insertion-ordered dictionaries

    A Python [dict] keeps its keys in insertion order; assigning to a key
    that is present replaces the value in place. *)
Module PyDict.
Section dict.
Context {K V : Type} `{EqDecision K}.

Fixpoint set (k : K) (v : V) (d : list (K * V)) : list (K * V) :=
  match d with
  | [] => [(k, v)]
  | (k', v') :: d' =>
      if decide (k = k') then (k, v) :: d' else (k', v') :: set k v d'
  end.

Fixpoint get (k : K) (d : list (K * V)) : option V :=
  match d with
  | [] => None
  | (k', v') :: d' => if decide (k = k') then Some v' else get k d'
  end.

Definition keys (d : list (K * V)) : list K := d.*1.
End dict.
End PyDict.

(** ** Deck records *)

(** Values of deck items; they are copied into the output, never
    computed with. *)
Inductive value :=
  | VNum (z : Z)
  | VStr (s : string).

#[global] Instance value_eq_dec : EqDecision value.
Proof. solve_decision. Defined.

(** Origin tag of an edge: the value stored in [currentedges]. *)
Inductive origin := GRUPTREE_t | WELSPECS_t.

#[global] Instance origin_eq_dec : EqDecision origin.
Proof. solve_decision. Defined.

(** One record of DATES or START. *)
Record daterec := { DAY : Z; MONTH : string; YEAR : Z }.

(** A keyword of the deck, by [kw.name], with the records the extractor
    reads from it.  A TSTEP record is its step list (whole days); a
    GRUPTREE record is (child, parent); a WELSPECS record is (well, group);
    a GRUPNET record maps the names of the items that are set to their
    first value. *)
Inductive keyword :=
  | DATES (recs : list daterec)
  | START (recs : list daterec)
  | TSTEP (recs : list (list Z))
  | GRUPTREE (recs : list (string * string))
  | WELSPECS (recs : list (string * string))
  | GRUPNET (recs : list (list (string * value)))
  | OTHER (name : string).

Definition GRUPNETKEYS : list string :=
  [ "NAME"; "TERMINAL_PRESSURE"; "VFP_TABLE"; "ALQ"; "SUB_SEA_MANIFOLD";
    "LIFT_GAS_FLOW_THROUGH"; "ALQ_SURFACE_EQV" ].

(** ** The pandas fragment used for [grupnet_df] *)
Module Frame.

(** A frame indexed by NAME: its remaining columns and, per row, the
    index value (absent when the record had no NAME) and the record. *)
Record t := mk {
  columns : list string;
  rows : list (option value * list (string * value))
}.

(** [pd.DataFrame()] *)
Definition empty : t := mk [] [].

(** Columns of [pd.DataFrame(records)]: the keys of the records, each
    once, in order of first appearance. *)
Definition columns_of (records : list (list (string * value))) : list string :=
  reverse (remove_dups (reverse (concat (map PyDict.keys records)))).

Definition name_of (r : list (string * value)) : option value :=
  PyDict.get "NAME" r.

(** [.drop_duplicates(subset="NAME", keep="last")] *)
Fixpoint drop_duplicates_last (records : list (list (string * value)))
  : list (list (string * value)) :=
  match records with
  | [] => []
  | r :: rest =>
      if decide (name_of r ∈ map name_of rest)
      then drop_duplicates_last rest
      else r :: drop_duplicates_last rest
  end.

(** [pd.DataFrame(records).drop_duplicates(subset="NAME", keep="last")
    .set_index("NAME")]; [KeyError] when there is no NAME column. *)
Definition of_records (records : list (list (string * value))) : outcome t :=
  let cols := columns_of records in
  if decide ("NAME" ∈ cols)
  then Ok (mk (filter (λ c, c ≠ "NAME") cols)
              (map (λ r, (name_of r, r)) (drop_duplicates_last records)))
  else Raise KeyError.

(** [name in df.index] *)
Definition in_index (name : string) (df : t) : bool :=
  bool_decide (Some (VStr name) ∈ (rows df).*1).

(** [df.loc[name]]: one entry per column, absent values are NaN. *)
Definition loc (name : string) (df : t) : list (string * option value) :=
  match PyDict.get (Some (VStr name)) (rows df) with
  | Some r => map (λ c, (c, PyDict.get c r)) (columns df)
  | None => []
  end.

End Frame.

(** ** deck2df *)

(** One element of [gruptreerecords]: the dictionary [rec_dict].  [NET]
    holds the entries added by [rec_dict.update(grupnet_df.loc[child])]. *)
Record rec_dict := mkrow {
  DATE : option Z;
  CHILD : string;
  PARENT : string;
  TYPE : origin;
  NET : list (string * option value)
}.

Inductive logrecord :=
  | WarnNoDateParsed
  | WarnUsing1900
  | InfoAdvancing (days : Z) (date : Z).

(** The local variables of [deck2df]. *)
Record state := mkstate {
  date : option Z;
  gruptreerecords : list rec_dict;
  grupnetrecords : list (list (string * value));
  currentedges : list ((string * string) * origin);
  grupnet_df : Frame.t;
  found_gruptree : bool;
  found_welspecs : bool;
  found_grupnet : bool;
  log : list logrecord
}.

Definition init (startdate : option Z) : state :=
  mkstate startdate [] [] [] Frame.empty false false false [].

Definition set_date (d : option Z) (st : state) : state :=
  mkstate d (gruptreerecords st) (grupnetrecords st) (currentedges st)
    (grupnet_df st) (found_gruptree st) (found_welspecs st) (found_grupnet st)
    (log st).

Definition add_log (m : list logrecord) (st : state) : state :=
  mkstate (date st) (gruptreerecords st) (grupnetrecords st) (currentedges st)
    (grupnet_df st) (found_gruptree st) (found_welspecs st) (found_grupnet st)
    (log st ++ m).

Definition set_edge (e : string * string) (o : origin) (st : state) : state :=
  mkstate (date st) (gruptreerecords st) (grupnetrecords st)
    (PyDict.set e o (currentedges st))
    (grupnet_df st) (found_gruptree st) (found_welspecs st) (found_grupnet st)
    (log st).

(** The body of both dump loops: the row of one edge. *)
Definition edge_row (d : option Z) (df : Frame.t)
    (item : (string * string) * origin) : rec_dict :=
  let '(edgename, value) := item in
  mkrow d edgename.1 edgename.2 value
    (if Frame.in_index edgename.1 df then Frame.loc edgename.1 df else []).

(** [for edgename, value in currentedges.items(): ...] *)
Definition snapshot (d : option Z) (df : Frame.t)
    (edges : list ((string * string) * origin)) : list rec_dict :=
  map (edge_row d df) edges.

Definition pending (st : state) : bool :=
  found_gruptree st || found_welspecs st || found_grupnet st.

(** Lines 82-102: the dump at a date-advancing keyword. *)
Definition dump (st : state) : state :=
  if negb (bool_decide (currentedges st = [])) && pending st then
    let '(d, msgs) :=
      match date st with
      | None => (PyDate.epoch1900, [WarnNoDateParsed; WarnUsing1900])
      | Some d => (d, [])
      end in
    mkstate (Some d)
      (gruptreerecords st ++ snapshot (Some d) (grupnet_df st) (currentedges st))
      (grupnetrecords st) (currentedges st) (grupnet_df st)
      false false false (log st ++ msgs)
  else st.

(** One record of TSTEP (lines 115-128). *)
Definition tstep_rec (st : state) (steplist : list Z) : outcome state :=
  let days := foldl Z.add 0 steplist in
  if days <=? 0 then Fatal days
  else
    match date st with
    | None => Raise TypeError
    | Some d =>
        d' ← PyDate.add_days d days;
        Ok (add_log [InfoAdvancing days d'] (set_date (Some d') st))
    end.

(** The GRUPNET loop body (lines 147-154): [grupnet_data]. *)
Definition grupnet_data (rec : list (string * value)) : list (string * value) :=
  omap (λ rec_key, v ← PyDict.get rec_key rec; Some (rec_key, v)) GRUPNETKEYS.

(** [kw.name == "DATES" or kw.name == "START" or kw.name == "TSTEP"] *)
Definition date_advancing (kw : keyword) : bool :=
  match kw with
  | DATES _ | START _ | TSTEP _ => true
  | _ => false
  end.

(** Lines 132-159: the keywords that change the tree or the network. *)
Definition record_kw (welspecs : bool) (st : state) (kw : keyword)
  : outcome state :=
  match kw with
  | GRUPTREE recs =>
      let st1 :=
        mkstate (date st) (gruptreerecords st) (grupnetrecords st)
          (currentedges st) (grupnet_df st)
          true (found_welspecs st) (found_grupnet st) (log st) in
      Ok (foldl (λ s edgerec, set_edge edgerec GRUPTREE_t s) st1 recs)
  | WELSPECS recs =>
      if welspecs then
        let st1 :=
          mkstate (date st) (gruptreerecords st) (grupnetrecords st)
            (currentedges st) (grupnet_df st)
            (found_gruptree st) true (found_grupnet st) (log st) in
        Ok (foldl (λ s wellrec, set_edge wellrec WELSPECS_t s) st1 recs)
      else Ok st
  | GRUPNET recs =>
      let records := grupnetrecords st ++ map grupnet_data recs in
      df ← Frame.of_records records;
      Ok (mkstate (date st) (gruptreerecords st) records
            (currentedges st) df
            (found_gruptree st) (found_welspecs st) true (log st))
  | _ => Ok st
  end.

(** Lines 161-172: the dump after the loop. *)
Definition final_records (st : state) : list rec_dict :=
  if found_gruptree st || found_welspecs st
  then gruptreerecords st
         ++ snapshot (date st) (grupnet_df st) (currentedges st)
  else gruptreerecords st.

Section with_common.

(** [ecl2df.common.parse_ecl_month] is not part of the sources at hand; it
    is a parameter of the development.  [None] stands for a month name it
    does not know. *)
Variable parse_ecl_month : string → option Z.

(** One record of DATES or START (lines 107-112). *)
Definition date_rec (st : state) (rec : daterec) : outcome state :=
  match parse_ecl_month (MONTH rec) with
  | None => Raise KeyError
  | Some month =>
      d ← PyDate.date (YEAR rec) month (DAY rec);
      Ok (set_date (Some d) st)
  end.

(** Lines 105-131: the date change of a date-advancing keyword. *)
Definition advance (kw : keyword) (st : state) : outcome state :=
  match kw with
  | DATES recs | START recs => for_each date_rec recs st
  | TSTEP recs => for_each tstep_rec recs st
  | _ => Ok st
  end.

(** The body of [for kw in deck]. *)
Definition step (welspecs : bool) (st : state) (kw : keyword) : outcome state :=
  st1 ← (if date_advancing kw then advance kw (dump st) else Ok st);
  record_kw welspecs st1 kw.

Definition scan (welspecs : bool) (deck : list keyword) (st : state)
  : outcome state :=
  for_each (step welspecs) deck st.

(** [deck2df(deck, startdate, welspecs)]: the rows of the returned frame. *)
Definition deck2df (deck : list keyword) (startdate : option Z)
    (welspecs : bool) : outcome (list rec_dict) :=
  st ← scan welspecs deck (init startdate);
  Ok (final_records st).

End with_common.

(** The Eclipse month names, used to instantiate [parse_ecl_month] in the
    examples. *)
Definition eclmonth2num (m : string) : option Z :=
  PyDict.get m
    [ ("JAN", 1); ("FEB", 2); ("MAR", 3); ("APR", 4); ("MAY", 5); ("JUN", 6);
      ("JUL", 7); ("JLY", 7); ("AUG", 8); ("SEP", 9); ("OCT", 10);
      ("NOV", 11); ("DEC", 12) ].

(** ** gruptreedf2dict *)

(** A nested dictionary, by value: [{child: {...}, ...}]. *)
#[warnings="-register-all"]
Inductive tree := Node (kids : list (string * tree)).

(** The [defaultdict(dict)] named [subtrees].  Every name is bound to one
    dictionary object, and the value stored under a key of such an object is
    a reference to the dictionary object of a name: the objects are shared,
    not copied.  References are the names. *)
Definition store := list (string * list (string * string)).

(** [subtrees[name]] on a [defaultdict]: a missing name is bound to a fresh
    empty dictionary. *)
Definition touch (name : string) (s : store) : store :=
  match PyDict.get name s with
  | Some _ => s
  | None => s ++ [(name, [])]
  end.

(** [subtrees[parent][child] = subtrees[child]]: the right-hand side is
    evaluated first. *)
Definition link (s : store) (edge : string * string) : store :=
  let '(child, parent) := edge in
  let s1 := touch child s in
  let s2 := touch parent s1 in
  PyDict.set parent (PyDict.set child child (default [] (PyDict.get parent s2))) s2.

(** The value returned by [gruptreedf2dict]: [{}] for an empty frame,
    otherwise the list [trees], whose dictionaries refer into [subtrees]. *)
Inductive forest :=
  | EmptyDict
  | Trees (trees : list (list (string * string))) (subtrees : store).

Definition gruptreedf2dict (df : list rec_dict) : forest :=
  if bool_decide (df = []) then EmptyDict
  else
    let edges := map (λ row, (CHILD row, PARENT row)) df in
    let subtrees := foldl link [] edges in
    let children := edges.*1 in
    let parents := edges.*2 in
    let roots : gset string := list_to_set parents ∖ list_to_set children in
    Trees (map (λ _, map (λ root, (root, root)) (elements roots)) (elements roots))
          subtrees.

(** The nested dictionary a reference stands for, read to depth [fuel];
    [None] when the nesting is deeper. *)
Fixpoint nested (fuel : nat) (s : store) (ref : string) : option tree :=
  match fuel with
  | O => None
  | S k =>
      kids ← mapM (λ kv : string * string, t ← nested k s kv.2; Some (kv.1, t))
                  (default [] (PyDict.get ref s));
      Some (Node kids)
  end.

(** The edge list of a nested dictionary: the (child, parent) pairs below
    the node [parent]. *)
Fixpoint tree_pairs (parent : string) (t : tree) : list (string * string) :=
  match t with
  | Node kids =>
      flat_map (λ kv, (kv.1, parent) :: tree_pairs kv.1 kv.2) kids
  end.

(** All (child, parent) pairs of a forest. *)
Definition forest_pairs (fuel : nat) (f : forest) : option (list (string * string)) :=
  match f with
  | EmptyDict => Some []
  | Trees trees s =>
      (λ ps, concat ps) <$> mapM (λ m : list (string * string),
        (λ ps, concat ps) <$> mapM (λ kv : string * string,
                           tree_pairs kv.1 <$> nested fuel s kv.2) m) trees
  end.

Definition edge_rows (edges : list (string * string)) : list rec_dict :=
  map (λ e, mkrow None e.1 e.2 GRUPTREE_t []) edges.

(** * Notions used in the statements *)

(** Only the clock and the log differ. *)
Definition same_tables (st st' : state) : Prop :=
  gruptreerecords st' = gruptreerecords st
  ∧ grupnetrecords st' = grupnetrecords st
  ∧ currentedges st' = currentedges st
  ∧ grupnet_df st' = grupnet_df st
  ∧ found_gruptree st' = found_gruptree st
  ∧ found_welspecs st' = found_welspecs st
  ∧ found_grupnet st' = found_grupnet st.

(** The edges recorded by a keyword, and the tag they are recorded with. *)
Definition recorded (welspecs : bool) (kw : keyword) : list (string * string) :=
  match kw with
  | GRUPTREE recs => recs
  | WELSPECS recs => if welspecs then recs else []
  | _ => []
  end.

Definition origin_of (kw : keyword) : origin :=
  match kw with
  | WELSPECS _ => WELSPECS_t
  | _ => GRUPTREE_t
  end.

(** A run of the loop in which every date-advancing keyword is met with an
    empty accumulator. *)
Fixpoint quiet_scan (parse_ecl_month : string → option Z) (welspecs : bool)
    (deck : list keyword) (st : state) : option state :=
  match deck with
  | [] => Some st
  | kw :: rest =>
      if date_advancing kw && negb (bool_decide (currentedges st = []))
      then None
      else match step parse_ecl_month welspecs st kw with
           | Ok st1 => quiet_scan parse_ecl_month welspecs rest st1
           | _ => None
           end
  end.

(** The last record carrying a given NAME. *)
Definition last_named (k : option value) (records : list (list (string * value)))
  : option (list (string * value)) :=
  last (filter (λ r, Frame.name_of r = k) records).

(** Order on the DATE values of rows: a missing date compares with a
    missing date only. *)
Definition date_le (a b : option Z) : Prop :=
  match a, b with
  | Some x, Some y => x ≤ y
  | None, None => True
  | _, _ => False
  end.

Definition nondecreasing (rows : list rec_dict) : Prop :=
  StronglySorted (λ r1 r2, date_le (DATE r1) (DATE r2)) rows.

Definition opt_leb (a b : option Z) : bool :=
  match a, b with
  | Some x, Some y => x <=? y
  | None, _ => true
  | Some _, None => false
  end.

(** The date set by each date-advancing keyword is not earlier than the
    date in force when its date change is applied. *)
Fixpoint clock_never_back (parse_ecl_month : string → option Z)
    (welspecs : bool) (deck : list keyword) (st : state) : bool :=
  match deck with
  | [] => true
  | kw :: rest =>
      match step parse_ecl_month welspecs st kw with
      | Ok st1 =>
          (if date_advancing kw then opt_leb (date (dump st)) (date st1)
           else true)
          && clock_never_back parse_ecl_month welspecs rest st1
      | _ => true
      end
  end.

(** Every row so far is dated, not later than the clock, and the rows are in
    order. *)
Definition rows_behind_clock (st : state) : Prop :=
  (∀ r, r ∈ gruptreerecords st →
        ∃ x y, DATE r = Some x ∧ date st = Some y ∧ x ≤ y)
  ∧ nondecreasing (gruptreerecords st).

(** The keys of the dictionary bound to [name] in the store. *)
Definition kids_of (s : store) (name : string) : list (string * string) :=
  default [] (PyDict.get name s).

(** The store agrees with an edge list: the dictionary of a name holds one
    key per child of that name, bound to the dictionary of the child. *)
Definition store_of (s : store) (edges : list (string * string)) : Prop :=
  (∀ p c r, (c, r) ∈ kids_of s p → r = c ∧ (c, p) ∈ edges)
  ∧ (∀ c p, (c, p) ∈ edges → (c, c) ∈ kids_of s p).

(** [below edges n p]: [p] is [n] or a descendant of [n]. *)
Inductive below (edges : list (string * string)) : string → string → Prop :=
  | below_here n : below edges n n
  | below_step n c p : (c, n) ∈ edges → below edges c p → below edges n p.

(** The dictionary a returned mapping stands for, by value. *)
Definition mapping_tree (fuel : nat) (s : store) (m : list (string * string))
  : option tree :=
  kids ← mapM (λ kv : string * string, t ← nested fuel s kv.2; Some (kv.1, t)) m;
  Some (Node kids).

(** * Example decks and frames *)

Module Ex.
Definition jan1 : daterec := {| DAY := 1; MONTH := "JAN"; YEAR := 2020 |}.
Definition feb1 : daterec := {| DAY := 1; MONTH := "FEB"; YEAR := 2020 |}.
Definition mar1 : daterec := {| DAY := 1; MONTH := "MAR"; YEAR := 2020 |}.

Definition grp1_alq5 : list (string * value) :=
  [("NAME", VStr "GRP1"); ("ALQ", VNum 5)].
Definition grp1_plain : list (string * value) :=
  [("NAME", VStr "GRP1"); ("TERMINAL_PRESSURE", VNum 90)].
Definition grp2_plain : list (string * value) :=
  [("NAME", VStr "GRP2"); ("TERMINAL_PRESSURE", VNum 80)].

(** The state reached after START, a GRUPNET block and a GRUPTREE block. *)
Definition st_tree : state :=
  mkstate (Some 737425) [] [grp1_alq5]
    [(("GRP1", "FIELD"), GRUPTREE_t); (("W1", "GRP1"), GRUPTREE_t)]
    (Frame.mk ["ALQ"] [(Some (VStr "GRP1"), grp1_alq5)])
    true false true [].

(** The state reached after START and a GRUPNET block only. *)
Definition st_net : state :=
  mkstate (Some 737425) [] [grp1_alq5] []
    (Frame.mk ["ALQ"] [(Some (VStr "GRP1"), grp1_alq5)])
    false false true [].
End Ex.

Module Ex10.
Definition deck : list keyword :=
  [DATES [Ex.feb1]; GRUPTREE [("GRP1", "FIELD")]].
Definition st1 : state :=
  Eval vm_compute in
    default Ex.st_net (quiet_scan eclmonth2num true deck Ex.st_net).
Definition st2 : state :=
  Eval vm_compute in
    match step eclmonth2num true st1 (DATES [Ex.mar1]) with
    | Ok s => s
    | _ => st1
    end.
End Ex10.

Module Ex6.
(** W1 is moved from GRP1 to GRP2. *)
Definition deck : list keyword :=
  [START [Ex.jan1]; GRUPTREE [("W1", "GRP1"); ("GRP1", "FIELD")]].
Definition kw : keyword := WELSPECS [("W1", "GRP2")].
Definition st : state :=
  Eval vm_compute in
    match scan eclmonth2num true deck (init None) with
    | Ok s => s
    | _ => init None
    end.
Definition st' : state :=
  Eval vm_compute in
    match step eclmonth2num true st kw with
    | Ok s => s
    | _ => st
    end.
End Ex6.

Module Ex5.
(** GRP1 is given ALQ=5, then redefined without ALQ. *)
Definition st : state :=
  Eval vm_compute in
    match scan eclmonth2num true
            [START [Ex.jan1]; GRUPTREE [("GRP1", "FIELD")];
             GRUPNET [Ex.grp1_alq5]; DATES [Ex.feb1]] (init None) with
    | Ok s => s
    | _ => init None
    end.
Definition st' : state :=
  Eval vm_compute in
    match step eclmonth2num true st (GRUPNET [Ex.grp1_plain]) with
    | Ok s => s
    | _ => st
    end.
End Ex5.

Module Ex7back.
Definition deck : list keyword :=
  [START [Ex.feb1]; GRUPTREE [("W1", "GRP1")]; DATES [Ex.jan1];
   WELSPECS [("W2", "GRP1")]].
Definition rows : list rec_dict :=
  [ mkrow (Some 737456) "W1" "GRP1" GRUPTREE_t [];
    mkrow (Some 737425) "W1" "GRP1" GRUPTREE_t [];
    mkrow (Some 737425) "W2" "GRP1" WELSPECS_t [] ].
End Ex7back.

Module Ex7.
Definition deck : list keyword :=
  [START [Ex.jan1]; GRUPTREE [("W1", "GRP1")]; TSTEP [[10; 21]];
   WELSPECS [("W2", "GRP1")]; DATES [Ex.mar1]; GRUPTREE [("GRP1", "FIELD")]].
Definition rows : list rec_dict :=
  Eval vm_compute in
    match deck2df eclmonth2num deck None true with
    | Ok rows => rows
    | _ => []
    end.
End Ex7.

Module Ex8.
Definition cycle : list rec_dict := edge_rows [("A", "B"); ("B", "A")].
Definition df : list rec_dict :=
  edge_rows [("W1", "GRP1"); ("GRP1", "FIELD"); ("GRP2", "FIELD");
             ("W1", "GRP2")].
Definition rank (name : string) : nat :=
  if decide (name = "FIELD") then 2%nat
  else if decide (name = "GRP1") then 1%nat
  else if decide (name = "GRP2") then 1%nat
  else 0%nat.
End Ex8.

Module Ex9.
Definition df : list rec_dict := edge_rows [("A", "R1"); ("B", "R2")].
Definition subtrees : store :=
  [("A", []); ("R1", [("A", "A")]); ("B", []); ("R2", [("B", "B")])].
Definition both_roots : list (string * string) :=
  [("R1", "R1"); ("R2", "R2")].
End Ex9.

(** * ecl2df.eclfiles *)

(** ** The string operations the module uses *)
Module PyStr.

(** [s.endswith(suffix)] *)
Definition endswith (s suffix : string) : bool :=
  let n := String.length s in
  let m := String.length suffix in
  (m <=? n)%nat && String.eqb (String.substring (n - m) m s) suffix.

(** [s.startswith(p)] *)
Definition startswith (s p : string) : bool := String.prefix p s.

(** [s[0:stop]]: a negative [stop] counts from the end, and the bound is
    clipped to the string. *)
Definition slice_to (stop : Z) (s : string) : string :=
  let n := Z.of_nat (String.length s) in
  let stop' := if stop <? 0 then Z.max 0 (stop + n) else Z.min stop n in
  String.substring 0 (Z.to_nat stop') s.

(** [s.split(sep)] for a separator of one character. *)
Fixpoint split (sep : Ascii.ascii) (s : string) : list string :=
  match s with
  | EmptyString => [EmptyString]
  | String c s' =>
      if decide (c = sep) then EmptyString :: split sep s'
      else match split sep s' with
           | h :: t => String c h :: t
           | [] => [String c EmptyString]
           end
  end.

End PyStr.

(** [rreplace(pat, sub, string)] (lines 245-247). *)
Definition rreplace (pat sub : string) (string : String.string)
  : String.string :=
  if PyStr.endswith string pat
  then String.append (PyStr.slice_to (- Z.of_nat (String.length pat)) string) sub
  else string.

(** [EclFiles.__init__] (lines 52-59): the value stored in [_eclbase]. *)
Definition EclFiles_init (eclbase : string) : string :=
  let eclbase := rreplace ".DATA" "" eclbase in
  let eclbase := rreplace "." "" eclbase in
  eclbase.

(** [EclFiles.get_rstfilename] (lines 186-188). *)
Definition get_rstfilename (_eclbase : string) : string :=
  String.append _eclbase ".UNRST".

(** ** get_zonemap *)

Section zonemap.

(** Library functions, taken as parameters: [str.strip], [shlex.split]
    ([None] when it raises [ValueError]) and [int] on a string ([None] when
    it raises [ValueError]). *)
Variable strip : string → string.
Variable shlex_split : string → option (list string).
Variable py_int : string → option Z.

(** Lines 231-234: the lines that are kept. *)
Definition zonelines (lines : list string) : list string :=
  let zonelines := map strip lines in
  let zonelines :=
    filter (λ line, PyStr.startswith line "--" = false) zonelines in
  let zonelines :=
    filter (λ line, PyStr.startswith line "#" = false) zonelines in
  filter (λ line, String.length line ≠ 0%nat) zonelines.

(** Line 239 and the bounds of line 240. *)
Definition zone_interval (interval : string) : outcome (Z * Z) :=
  match PyStr.split "-"%char (strip interval) with
  | [k_0; k_1] =>
      match py_int k_0, py_int k_1 with
      | Some a, Some b => Ok (a, b)
      | _, _ => Raise ValueError
      end
  | _ => Raise ValueError
  end.

(** The loop body (lines 238-241). *)
Definition zone_line (zonemap : gmap Z string) (line : string)
  : outcome (gmap Z string) :=
  match shlex_split line with
  | Some [layername; interval] =>
      ks ← zone_interval interval;
      Ok (foldl (λ zonemap k, <[k := layername]> zonemap) zonemap
            (seqZ ks.1 (ks.2 + 1 - ks.1)))
  | _ => Raise ValueError
  end.

(** Lines 230-242, on the lines of the file. *)
Definition zonemap_of_lines (lines : list string) : outcome (gmap Z string) :=
  for_each zone_line (zonelines lines) ∅.

(** The file system, as far as the method looks at it. *)
Variable os_path_isabs : string → bool.
Variable os_path_join : string → string → string.
Variable os_path_exists : string → bool.
Variable readlines : string → list string.

(** [EclFiles.get_zonemap(filename)] (lines 213-242), for an object whose
    [get_path()] is [path]: the warnings logged and the result. *)
Definition get_zonemap (path : string) (filename : option string)
  : list string * outcome (gmap Z string) :=
  let filename_defaulted :=
    match filename with
    | None | Some EmptyString => true
    | Some _ => false
    end in
  let filename := if filename_defaulted then "zones.lyr" else default "" filename in
  let fullpath :=
    if os_path_isabs filename then filename else os_path_join path filename in
  if os_path_exists fullpath then ([], zonemap_of_lines (readlines fullpath))
  else if filename_defaulted then ([], Ok ∅)
  else ([fullpath], Ok ∅).

(** What one kept line stands for: a layer name and the bounds of its
    interval. *)
Definition parse_zoneline (line : string) : outcome (string * (Z * Z)) :=
  match shlex_split line with
  | Some [layername; interval] =>
      ks ← zone_interval interval; Ok (layername, ks)
  | _ => Raise ValueError
  end.

End zonemap.

(** The layer name given to [k] by a list of (name, interval) entries: that
    of the last entry whose interval holds [k]. *)
Definition layer_of (entries : list (string * (Z * Z))) (k : Z) : option string :=
  fst <$> last (filter (λ e, e.2.1 ≤ k ≤ e.2.2) entries).

(** Stand-ins for the library functions on plain input: no surrounding
    blanks, two tokens separated by one space, unsigned decimal numbers. *)
Module ExZone.
Fixpoint digits (acc : Z) (s : string) : option Z :=
  match s with
  | EmptyString => Some acc
  | String c s' =>
      match Ascii.is_nat c with
      | Some d => digits (10 * acc + Z.of_nat d) s'
      | None => None
      end
  end.
Definition int (s : string) : option Z :=
  match s with
  | EmptyString => None
  | _ => digits 0 s
  end.
Definition words (line : string) : option (list string) :=
  Some (PyStr.split " "%char line).
Definition lines : list string :=
  ["-- zones"; "Upper 1-4"; ""; "Lower 5-10"; "Mid 4-5"].
Definition entries : list (string * (Z * Z)) :=
  [("Upper", (1, 4)); ("Lower", (5, 10)); ("Mid", (4, 5))].
End ExZone.

(** Stand-ins for the file system in the examples: one zone file. *)
Module ExFs.
Definition isabs (p : string) : bool := PyStr.startswith p "/".
Definition join (dir name : string) : string :=
  String.append dir (String.append "/" name).
Definition exists_ (p : string) : bool := String.eqb p "/case/zones.lyr".
Definition readlines (p : string) : list string := ExZone.lines.
End ExFs.

(** ** Notions for further statements about deck2df *)

(** Keywords the loop body does nothing for. *)
Definition ignored (welspecs : bool) (kw : keyword) : bool :=
  match kw with
  | OTHER _ => true
  | WELSPECS _ => negb welspecs
  | _ => false
  end.

(** Keywords that set an absolute date. *)
Definition sets_date (kw : keyword) : bool :=
  match kw with
  | DATES _ | START _ => true
  | _ => false
  end.

(** Every edge of the accumulator and every row carries a (child, parent)
    pair and a tag for which [P] holds. *)
Definition edges_satisfy (P : (string * string) * origin → Prop)
    (st : state) : Prop :=
  (∀ item, item ∈ currentedges st → P item)
  ∧ (∀ r, r ∈ gruptreerecords st → P ((CHILD r, PARENT r), TYPE r)).

(** The call either returns or raises [KeyError]. *)
Definition returned_or_keyerror {A} (o : outcome A) : Prop :=
  (∃ v, o = Ok v) ∨ o = Raise KeyError.

Module Ex14.
Definition rows : list rec_dict :=
  Eval vm_compute in
    match deck2df eclmonth2num
            [GRUPTREE [("W1", "GRP1")]; TSTEP [[10]];
             WELSPECS [("W2", "GRP1")]; TSTEP [[1; 2]; [5]];
             GRUPTREE [("GRP1", "FIELD")]] (Some 737425) true with
    | Ok rows => rows
    | _ => []
    end.
End Ex14.

(** * dict2treelib *)

(** ** The treelib fragment used by dict2treelib

    A [treelib.Tree] holds the identifier of its root and a dictionary from
    identifier to node; a node knows its tag, the identifier of its parent
    ([bpointer]) and the identifiers of its children ([fpointer]). *)
Module Treelib.

Record node := mknode {
  tag : string;
  bpointer : option string;
  fpointer : list string
}.

Record t := mk {
  root : option string;
  nodes : list (string * node)
}.

Inductive error :=
  | DuplicatedNodeIdError
  | MultipleRootError
  | NodeIDAbsentError
  | ValueError.

Inductive result (A : Type) :=
  | Done (v : A)
  | Raised (e : error).
Arguments Done {A} v.
Arguments Raised {A} e.

#[global] Instance result_ret : MRet result := fun _ v => Done v.
#[global] Instance result_bind : MBind result := fun _ _ f m =>
  match m with
  | Done v => f v
  | Raised e => Raised e
  end.

(** [Tree()] *)
Definition empty : t := mk None [].

(** [tree.contains(nid)] *)
Definition contains (nid : string) (tree : t) : bool :=
  bool_decide (nid ∈ PyDict.keys (nodes tree)).

(** [tree[nid].attr = ...]: change one node in place. *)
Definition alter_node (f : node → node) (nid : string)
    (ns : list (string * node)) : list (string * node) :=
  match PyDict.get nid ns with
  | Some n => PyDict.set nid (f n) ns
  | None => ns
  end.

(** [tree.create_node(tag, identifier)], without a parent. *)
Definition create_node (tag identifier : string) (tree : t) : result t :=
  if contains identifier tree then Raised DuplicatedNodeIdError
  else match root tree with
       | Some _ => Raised MultipleRootError
       | None =>
           Done (mk (Some identifier)
                   (PyDict.set identifier (mknode tag None []) (nodes tree)))
       end.

(** [tree.paste(nid, new_tree)]: the nodes of [new_tree] are added, its
    root becomes the last child of [nid]; an identifier present in both
    trees is refused.  Pasting a tree without a root changes nothing;
    dict2treelib never does so. *)
Definition paste (nid : string) (new_tree : t) (tree : t) : result t :=
  match root new_tree with
  | None => Done tree
  | Some new_root =>
      if negb (contains nid tree) then Raised NodeIDAbsentError
      else if decide (Exists (λ cid, cid ∈ PyDict.keys (nodes tree))
                        (PyDict.keys (nodes new_tree)))
      then Raised ValueError
      else
        let ns := foldl (λ ns kv, PyDict.set kv.1 kv.2 ns)
                    (nodes tree) (nodes new_tree) in
        let ns := alter_node
                    (λ n, mknode (tag n) (bpointer n) (fpointer n ++ [new_root]))
                    nid ns in
        let ns := alter_node
                    (λ n, mknode (tag n) (Some nid) (fpointer n))
                    new_root ns in
        Done (mk (root tree) ns)
  end.

End Treelib.

(** The loop of dict2treelib (lines 258-259), with the recursive call as a
    parameter. *)
Definition paste_children
    (dict2treelib : string → tree → Treelib.result Treelib.t) (name : string)
  : list (string * tree) → Treelib.t → Treelib.result Treelib.t :=
  fix loop kids tree :=
    match kids with
    | [] => Treelib.Done tree
    | kv :: rest =>
        sub ← dict2treelib kv.1 kv.2;
        tree' ← Treelib.paste name sub tree;
        loop rest tree'
    end.

(** [dict2treelib(name, d)] (lines 246-260), on a nested dictionary given
    by value. *)
Fixpoint dict2treelib (name : string) (d : tree) : Treelib.result Treelib.t :=
  match d with
  | Node kids =>
      tree ← Treelib.create_node name name Treelib.empty;
      paste_children dict2treelib name kids tree
  end.

(** The names in a nested dictionary, keys before their contents. *)
Fixpoint names (d : tree) : list string :=
  match d with
  | Node kids => flat_map (λ kv, kv.1 :: names kv.2) kids
  end.

(** The nodes expected of the tree for the dictionary [d] under [name]:
    one node per name, each pointing back to the name it is a key under and
    forward to its own keys, in their order. *)
Fixpoint expected_nodes (parent : option string) (name : string) (d : tree)
  : list (string * Treelib.node) :=
  match d with
  | Node kids =>
      (name, Treelib.mknode name parent kids.*1)
        :: flat_map (λ kv, expected_nodes (Some name) kv.1 kv.2) kids
  end.

Module ExTree.
Definition field : tree :=
  Node [("GRP1", Node [("W1", Node [])]); ("GRP2", Node [("W2", Node [])])].
Definition moved : tree :=
  Node [("GRP1", Node [("W1", Node [])]); ("GRP2", Node [("W1", Node [])])].
End ExTree.

(** The tree once the children [done] are pasted under [name]. *)
Definition pasted (name : string) (done : list (string * tree)) : Treelib.t :=
  Treelib.mk (Some name) (expected_nodes None name (Node done)).

(** What dict2treelib does on [d] under [name], by the names being distinct
    or not. *)
Definition dict2treelib_spec (d : tree) : Prop :=
  ∀ name,
    (NoDup (name :: names d) →
     dict2treelib name d
     = Treelib.Done (Treelib.mk (Some name) (expected_nodes None name d)))
    ∧ (¬ NoDup (name :: names d) →
       dict2treelib name d = Treelib.Raised Treelib.ValueError).

(** * Properties *)

(** ** The outcome monad *)

Lemma bind_Ok {A B} (m : outcome A) (f : A → outcome B) v :
  (m ≫= f) = Ok v ↔ ∃ a, m = Ok a ∧ f a = Ok v.
Proof.
  destruct m as [a| |]; simpl; split; try (intros [? [? ?]]); try done.
  - intros Hf. by exists a.
  - naive_solver.
Qed.

Lemma for_each_app {A S} (body : S → A → outcome S) xs ys s :
  for_each body (xs ++ ys) s = (for_each body xs s ≫= for_each body ys).
Proof.
  revert s. induction xs as [|x xs IH]; intros s; simpl; [done|].
  destruct (body s x) as [s'| |]; simpl; [apply IH|done..].
Qed.

(** A relation that every iteration of a loop respects is respected by the
    whole loop. *)
Lemma for_each_rel {A S} (R : S → S → Prop) (body : S → A → outcome S) :
  (∀ s, R s s) → (∀ s1 s2 s3, R s1 s2 → R s2 s3 → R s1 s3) →
  (∀ s x s', body s x = Ok s' → R s s') →
  ∀ xs s s', for_each body xs s = Ok s' → R s s'.
Proof.
  intros Hrefl Htrans Hbody xs.
  induction xs as [|x xs IH]; intros s s' Hrun; simpl in Hrun.
  - injection Hrun as <-. apply Hrefl.
  - apply bind_Ok in Hrun as (s1 & H1 & H2). eauto.
Qed.

(** ** Dictionaries *)

Section dict_facts.
Context {K V : Type} `{EqDecision K}.
Implicit Types (d : list (K * V)) (k : K) (v : V).

Lemma get_set d k v k' :
  PyDict.get k' (PyDict.set k v d)
  = if decide (k' = k) then Some v else PyDict.get k' d.
Proof.
  induction d as [|[k0 v0] d IH]; simpl.
  - by destruct (decide (k' = k)).
  - destruct (decide (k = k0)) as [->|Hne]; simpl;
      destruct (decide (k' = k0)) as [->|?]; try done;
      repeat case_decide; by simplify_eq.
Qed.

Lemma keys_set_old d k v :
  k ∈ PyDict.keys d → PyDict.keys (PyDict.set k v d) = PyDict.keys d.
Proof.
  unfold PyDict.keys. induction d as [|[k0 v0] d IH]; intros Hin.
  - by apply elem_of_nil in Hin.
  - cbn [PyDict.set]. destruct (decide (k = k0)) as [->|Hne]; [done|].
    rewrite !fmap_cons, IH; [done|].
    rewrite fmap_cons in Hin. apply elem_of_cons in Hin as [?|?]; done.
Qed.

Lemma keys_set_new d k v :
  k ∉ PyDict.keys d → PyDict.keys (PyDict.set k v d) = PyDict.keys d ++ [k].
Proof.
  unfold PyDict.keys. induction d as [|[k0 v0] d IH]; intros Hin; [done|].
  cbn [PyDict.set]. rewrite fmap_cons in Hin.
  apply not_elem_of_cons in Hin as [Hne Hin].
  rewrite decide_False by done. by rewrite !fmap_cons, IH.
Qed.

Lemma keys_set_prefix d k v :
  PyDict.keys d `prefix_of` PyDict.keys (PyDict.set k v d).
Proof.
  destruct (decide (k ∈ PyDict.keys d)).
  - by rewrite keys_set_old.
  - rewrite keys_set_new by done. by apply prefix_app_r.
Qed.

Lemma get_is_Some d k : is_Some (PyDict.get k d) ↔ k ∈ PyDict.keys d.
Proof.
  unfold PyDict.keys. induction d as [|[k0 v0] d IH]; simpl.
  - split; [by intros [? ?]|]. by intros ?%elem_of_nil.
  - destruct (decide (k = k0)) as [->|Hne].
    + split; [intros _; apply list_elem_of_here|by eauto].
    + rewrite IH. split; [apply list_elem_of_further|].
      intros [?|?]%elem_of_cons; done.
Qed.

Lemma get_Some_elem d k v : PyDict.get k d = Some v → (k, v) ∈ d.
Proof.
  induction d as [|[k0 v0] d IH]; simpl; [done|].
  destruct (decide (k = k0)) as [->|Hne].
  - intros [= ->]. apply list_elem_of_here.
  - intros ?. apply list_elem_of_further. auto.
Qed.

(** Recording a list of keys with one value. *)
Lemma get_foldl_set d (ks : list K) v k' :
  PyDict.get k' (foldl (λ d k, PyDict.set k v d) d ks)
  = if decide (k' ∈ ks) then Some v else PyDict.get k' d.
Proof.
  revert d. induction ks as [|k ks IH]; intros d.
  - rewrite decide_False; [done|]. apply not_elem_of_nil.
  - cbn [foldl]. rewrite IH, get_set.
    destruct (decide (k' ∈ ks)) as [Hin|Hnin].
    + rewrite decide_True; [done|]. by apply list_elem_of_further.
    + destruct (decide (k' = k)) as [->|Hne].
      * rewrite decide_True; [done|]. apply list_elem_of_here.
      * rewrite decide_False; [done|].
        intros [?|?]%elem_of_cons; done.
Qed.

Lemma keys_foldl_set_prefix d (ks : list K) v :
  PyDict.keys d `prefix_of` PyDict.keys (foldl (λ d k, PyDict.set k v d) d ks).
Proof.
  revert d. induction ks as [|k ks IH]; intros d; simpl; [done|].
  etrans; [apply (keys_set_prefix d k v)|apply IH].
Qed.
End dict_facts.

(** ** The scan: what each part of the loop body touches *)

Lemma same_tables_refl st : same_tables st st.
Proof. by repeat split. Qed.

Lemma same_tables_trans st1 st2 st3 :
  same_tables st1 st2 → same_tables st2 st3 → same_tables st1 st3.
Proof.
  intros (?&?&?&?&?&?&?) (?&?&?&?&?&?&?). repeat split; congruence.
Qed.

Lemma same_tables_pending st st' : same_tables st st' → pending st' = pending st.
Proof. intros (?&?&?&?&?&?&?). unfold pending. congruence. Qed.

Lemma tstep_rec_same st steplist st' :
  tstep_rec st steplist = Ok st' → same_tables st st'.
Proof.
  unfold tstep_rec. destruct (_ <=? 0); [done|].
  destruct (date st) as [d|]; [|done].
  intros (d' & _ & [= <-])%bind_Ok. by repeat split.
Qed.

Lemma foldl_set_edge o recs st :
  foldl (λ s e, set_edge e o s) st recs
  = mkstate (date st) (gruptreerecords st) (grupnetrecords st)
      (foldl (λ d e, PyDict.set e o d) (currentedges st) recs)
      (grupnet_df st) (found_gruptree st) (found_welspecs st)
      (found_grupnet st) (log st).
Proof.
  revert st. induction recs as [|e recs IH]; intros st.
  - by destruct st.
  - cbn [foldl]. by rewrite IH.
Qed.

Lemma record_kw_edges welspecs st kw st' :
  record_kw welspecs st kw = Ok st' →
  currentedges st'
  = foldl (λ d e, PyDict.set e (origin_of kw) d) (currentedges st)
      (recorded welspecs kw).
Proof.
  destruct kw as [recs|recs|recs|recs|recs|recs|name]; simpl;
    try (by intros [= <-]).
  - intros [= <-]. by rewrite foldl_set_edge.
  - destruct welspecs; intros [= <-]; [|done]. by rewrite foldl_set_edge.
  - by intros (df & _ & [= <-])%bind_Ok.
Qed.

Lemma record_kw_records welspecs st kw st' :
  record_kw welspecs st kw = Ok st' →
  gruptreerecords st' = gruptreerecords st ∧ date st' = date st.
Proof.
  destruct kw as [recs|recs|recs|recs|recs|recs|name]; simpl;
    try (by intros [= <-]).
  - intros [= <-]. by rewrite foldl_set_edge.
  - destruct welspecs; intros [= <-]; [|done]. by rewrite foldl_set_edge.
  - by intros (df & _ & [= <-])%bind_Ok.
Qed.


Lemma record_kw_date_advancing welspecs st kw :
  date_advancing kw = true → record_kw welspecs st kw = Ok st.
Proof. by destruct kw. Qed.

(** The dump fires exactly on a non-empty accumulator with a flag set. *)
Lemma dump_fires st :
  currentedges st ≠ [] → pending st = true →
  let d := default PyDate.epoch1900 (date st) in
  date (dump st) = Some d
  ∧ gruptreerecords (dump st)
    = gruptreerecords st ++ snapshot (Some d) (grupnet_df st) (currentedges st)
  ∧ grupnetrecords (dump st) = grupnetrecords st
  ∧ currentedges (dump st) = currentedges st
  ∧ grupnet_df (dump st) = grupnet_df st
  ∧ found_gruptree (dump st) = false
  ∧ found_welspecs (dump st) = false
  ∧ found_grupnet (dump st) = false.
Proof.
  intros Hne Hp. unfold dump. rewrite Hp, bool_decide_eq_false_2 by done.
  simpl. by destruct (date st).
Qed.

Lemma dump_idle st :
  currentedges st = [] ∨ pending st = false → dump st = st.
Proof.
  unfold dump. intros [->| ->]; [done|]. by rewrite andb_false_r.
Qed.

Section scan_facts.
Variable parse_ecl_month : string → option Z.

Lemma date_rec_same st rec st' :
  date_rec parse_ecl_month st rec = Ok st' → same_tables st st'.
Proof.
  unfold date_rec. destruct (parse_ecl_month _); [|done].
  intros (d' & _ & [= <-])%bind_Ok. by repeat split.
Qed.

Lemma advance_same kw st st' :
  advance parse_ecl_month kw st = Ok st' → same_tables st st'.
Proof.
  destruct kw; simpl; try (intros [= <-]; apply same_tables_refl).
  - apply for_each_rel; eauto using same_tables_refl, same_tables_trans,
      date_rec_same.
  - apply for_each_rel; eauto using same_tables_refl, same_tables_trans,
      date_rec_same.
  - apply for_each_rel; eauto using same_tables_refl, same_tables_trans,
      tstep_rec_same.
Qed.

(** On a date-advancing keyword the loop body is the dump followed by the
    date change. *)
Lemma step_date_advancing welspecs st kw :
  date_advancing kw = true →
  step parse_ecl_month welspecs st kw = advance parse_ecl_month kw (dump st).
Proof.
  intros Hkw. unfold step. rewrite Hkw.
  destruct (advance _ _ _) as [st1| |]; simpl; [|done..].
  by apply record_kw_date_advancing.
Qed.

Lemma step_other welspecs st kw :
  date_advancing kw = false →
  step parse_ecl_month welspecs st kw = record_kw welspecs st kw.
Proof. intros Hkw. unfold step. by rewrite Hkw. Qed.

End scan_facts.

Lemma st_tree_reached :
  scan eclmonth2num true
    [START [Ex.jan1]; GRUPNET [Ex.grp1_alq5];
     GRUPTREE [("GRP1", "FIELD"); ("W1", "GRP1")]] (init None)
  = Ok Ex.st_tree.
Proof. reflexivity. Qed.

Lemma st_net_reached :
  scan eclmonth2num true [START [Ex.jan1]; GRUPNET [Ex.grp1_alq5]] (init None)
  = Ok Ex.st_net.
Proof. reflexivity. Qed.

(** ** C1: the snapshot at a date-advancing keyword *)

(** C1, as stated, fails on an empty accumulator: after START and a GRUPNET
    block the attribute flag is set and no edge exists; the DATES keyword
    that follows emits nothing and leaves the flag set. *)
Lemma C1_flags_kept_on_empty_accumulator :
  date_advancing (DATES [Ex.feb1]) = true
  ∧ pending Ex.st_net = true
  ∧ ∃ st', step eclmonth2num true Ex.st_net (DATES [Ex.feb1]) = Ok st'
           ∧ date st' = Some 737456
           ∧ found_grupnet st' = true.
Proof. repeat split. eexists. repeat split. Qed.

(** C1 (amended): at a date-advancing keyword met with a flag set and a
    non-empty accumulator, the loop body is the dump followed by the date
    change.  The dump appends one row per edge of the accumulator, in its
    order, each stamped with the date in force before the keyword (1900-01-01
    when none was established) and joined with the current entry of the
    attribute table for the child, and it clears the three flags; the date
    change then leaves rows and flags alone. *)
Theorem C1_snapshot_at_date_keyword
    (parse_ecl_month : string → option Z) (welspecs : bool)
    (st : state) (kw : keyword) :
  date_advancing kw = true →
  pending st = true →
  currentedges st ≠ [] →
  let d := default PyDate.epoch1900 (date st) in
  ∃ mid,
    step parse_ecl_month welspecs st kw = advance parse_ecl_month kw mid
    ∧ date mid = Some d
    ∧ (∃ rows,
         gruptreerecords mid = gruptreerecords st ++ rows
         ∧ Forall2 (λ row item,
              DATE row = Some d
              ∧ (CHILD row, PARENT row) = item.1
              ∧ TYPE row = item.2
              ∧ NET row = if Frame.in_index (CHILD row) (grupnet_df st)
                          then Frame.loc (CHILD row) (grupnet_df st)
                          else [])
             rows (currentedges st))
    ∧ found_gruptree mid = false
    ∧ found_welspecs mid = false
    ∧ found_grupnet mid = false
    ∧ ∀ st', step parse_ecl_month welspecs st kw = Ok st' →
        gruptreerecords st' = gruptreerecords mid ∧ pending st' = false.
Proof.
  intros Hkw Hp Hne d.
  destruct (dump_fires st Hne Hp) as (Hd & Hrows & _ & _ & _ & Hg & Hw & Hn).
  exists (dump st). rewrite step_date_advancing by done.
  split; [done|]. split; [done|]. split; [|split; [done|]; split; [done|]].
  - eexists. split; [exact Hrows|].
    unfold snapshot. apply Forall2_fmap_l, Forall_Forall2_diag, Forall_forall.
    by intros [[child parent] o] _.
  - split; [done|]. intros st' Hst'.
    pose proof (advance_same _ _ _ _ Hst') as Hsame. split; [apply Hsame|].
    rewrite (same_tables_pending _ _ Hsame).
    unfold pending. by rewrite Hg, Hw, Hn.
Qed.

Lemma C1_snapshot_at_date_keyword_witness :
  ∃ mid,
    step eclmonth2num true Ex.st_tree (DATES [Ex.feb1])
    = advance eclmonth2num (DATES [Ex.feb1]) mid
    ∧ date mid = Some 737425
    ∧ (∃ rows,
         gruptreerecords mid = [] ++ rows
         ∧ Forall2 (λ row item,
              DATE row = Some 737425
              ∧ (CHILD row, PARENT row) = item.1
              ∧ TYPE row = item.2
              ∧ NET row = if Frame.in_index (CHILD row) (grupnet_df Ex.st_tree)
                          then Frame.loc (CHILD row) (grupnet_df Ex.st_tree)
                          else [])
             rows (currentedges Ex.st_tree))
    ∧ found_gruptree mid = false
    ∧ found_welspecs mid = false
    ∧ found_grupnet mid = false
    ∧ ∀ st', step eclmonth2num true Ex.st_tree (DATES [Ex.feb1]) = Ok st' →
        gruptreerecords st' = gruptreerecords mid ∧ pending st' = false.
Proof.
  apply (C1_snapshot_at_date_keyword eclmonth2num true Ex.st_tree
           (DATES [Ex.feb1])).
  - reflexivity.
  - reflexivity.
  - discriminate.
Defined.

(** ** C10: nothing is emitted, and nothing is cleared, on an empty
    accumulator *)

Section quiet.
Variable parse_ecl_month : string → option Z.
Variable welspecs : bool.



End quiet.



(** The rows of the witness: the GRUPNET block of January is emitted in
    March, at the February date. *)
Example Ex10_rows :
  gruptreerecords Ex10.st2
  = [mkrow (Some 737456) "GRP1" "FIELD" GRUPTREE_t [("ALQ", Some (VNum 5))]].
Proof. reflexivity. Qed.

(** ** C6: the edge accumulator *)

Lemma snapshot_edges d df (edges : list ((string * string) * origin)) :
  map (λ r, (CHILD r, PARENT r)) (snapshot d df edges) = PyDict.keys edges.
Proof.
  unfold snapshot, PyDict.keys. induction edges as [|[[c p] o] edges IH]; [done|].
  simpl. by rewrite IH.
Qed.

Lemma dump_edges st : currentedges (dump st) = currentedges st.
Proof.
  unfold dump. destruct (negb _ && pending st); [|done]. by destruct (date st).
Qed.

Lemma dump_records st :
  ∃ rows, gruptreerecords (dump st) = gruptreerecords st ++ rows
          ∧ (rows = []
             ∨ map (λ r, (CHILD r, PARENT r)) rows = PyDict.keys (currentedges st)).
Proof.
  unfold dump. destruct (negb _ && pending st).
  - destruct (date st); simpl; eexists; (split; [done|]); right;
      apply snapshot_edges.
  - exists []. split; [by rewrite app_nil_r|by left].
Qed.

Section accumulator.
Variable parse_ecl_month : string → option Z.
Variable welspecs : bool.

Lemma step_edges st kw st' :
  step parse_ecl_month welspecs st kw = Ok st' →
  currentedges st'
  = foldl (λ d e, PyDict.set e (origin_of kw) d) (currentedges st)
      (recorded welspecs kw).
Proof.
  destruct (date_advancing kw) eqn:Hkw.
  - rewrite step_date_advancing by done. intros Hadv.
    apply advance_same in Hadv as (_ & _ & -> & _).
    rewrite dump_edges. by destruct kw.
  - rewrite step_other by done. apply record_kw_edges.
Qed.

Lemma step_records st kw st' :
  step parse_ecl_month welspecs st kw = Ok st' →
  ∃ rows, gruptreerecords st' = gruptreerecords st ++ rows
          ∧ (rows = []
             ∨ map (λ r, (CHILD r, PARENT r)) rows
               = PyDict.keys (currentedges st)).
Proof.
  destruct (date_advancing kw) eqn:Hkw.
  - rewrite step_date_advancing by done. intros Hadv.
    apply advance_same in Hadv as (-> & _). apply dump_records.
  - rewrite step_other by done. intros [-> _]%record_kw_records.
    exists []. split; [by rewrite app_nil_r|by left].
Qed.

Lemma scan_keys_prefix deck st st' :
  scan parse_ecl_month welspecs deck st = Ok st' →
  PyDict.keys (currentedges st) `prefix_of` PyDict.keys (currentedges st').
Proof.
  unfold scan.
  apply (for_each_rel
           (λ s s', PyDict.keys (currentedges s)
                      `prefix_of` PyDict.keys (currentedges s'))).
  - done.
  - intros s1 s2 s3 ??. by etrans.
  - intros s kw s' ->%step_edges. apply keys_foldl_set_prefix.
Qed.
End accumulator.

(** C6: for a state [st] reached by scanning any part of a deck from [st0],
    and the next keyword [kw]:
    - an entry of the accumulator after [kw] is the tag of [kw] when exactly
      that (child, parent) tuple is among the tuples [kw] records, and the
      entry it had before otherwise;
    - the keys present at [st0] are still present at [st] and after [kw], in
      their order: nothing is deleted;
    - when [kw] gives [child] a parent [new], an entry (child, old) stays,
      and keeps its tag unless (child, old) itself is recorded by [kw];
    - the rows appended by [kw], and the rows appended after the loop, are
      either none or one row per key of the accumulator, in its order. *)
Theorem C6_edge_accumulator
    (parse_ecl_month : string → option Z) (welspecs : bool)
    (st0 st st' : state) (deck : list keyword) (kw : keyword) :
  scan parse_ecl_month welspecs deck st0 = Ok st →
  step parse_ecl_month welspecs st kw = Ok st' →
  (∀ e, PyDict.get e (currentedges st')
        = if decide (e ∈ recorded welspecs kw) then Some (origin_of kw)
          else PyDict.get e (currentedges st))
  ∧ PyDict.keys (currentedges st0) `prefix_of` PyDict.keys (currentedges st)
  ∧ PyDict.keys (currentedges st) `prefix_of` PyDict.keys (currentedges st')
  ∧ (∀ child old new,
       (child, old) ∈ PyDict.keys (currentedges st) →
       (child, new) ∈ recorded welspecs kw →
       (child, old) ∈ PyDict.keys (currentedges st')
       ∧ (child, new) ∈ PyDict.keys (currentedges st')
       ∧ ((child, old) ∉ recorded welspecs kw →
          PyDict.get (child, old) (currentedges st')
          = PyDict.get (child, old) (currentedges st)))
  ∧ (∃ rows, gruptreerecords st' = gruptreerecords st ++ rows
             ∧ (rows = []
                ∨ map (λ r, (CHILD r, PARENT r)) rows
                  = PyDict.keys (currentedges st)))
  ∧ (∃ rows, final_records st' = gruptreerecords st' ++ rows
             ∧ (rows = []
                ∨ map (λ r, (CHILD r, PARENT r)) rows
                  = PyDict.keys (currentedges st'))).
Proof.
  intros Hscan Hstep.
  pose proof (step_edges _ _ _ _ _ Hstep) as Hedges.
  assert (∀ e, PyDict.get e (currentedges st')
               = if decide (e ∈ recorded welspecs kw) then Some (origin_of kw)
                 else PyDict.get e (currentedges st)) as Hget.
  { intros e. rewrite Hedges. apply get_foldl_set. }
  assert (PyDict.keys (currentedges st)
            `prefix_of` PyDict.keys (currentedges st')) as Hpre.
  { rewrite Hedges. apply keys_foldl_set_prefix. }
  split; [done|]. split; [by eapply scan_keys_prefix|]. split; [done|].
  split; [|split].
  - intros child old new Hold Hnew. split; [|split].
    + destruct Hpre as [k ->]. apply elem_of_app. by left.
    + apply get_is_Some. rewrite Hget, decide_True by done. by eexists.
    + intros Hnot. by rewrite Hget, decide_False.
  - by eapply step_records.
  - unfold final_records. destruct (_ || _).
    + eexists. split; [done|]. right. apply snapshot_edges.
    + exists []. split; [by rewrite app_nil_r|by left].
Qed.

Lemma C6_edge_accumulator_witness :
  currentedges Ex6.st'
  = [(("W1", "GRP1"), GRUPTREE_t); (("GRP1", "FIELD"), GRUPTREE_t);
     (("W1", "GRP2"), WELSPECS_t)]
  ∧ (∀ e, PyDict.get e (currentedges Ex6.st')
        = if decide (e ∈ recorded true Ex6.kw) then Some (origin_of Ex6.kw)
          else PyDict.get e (currentedges Ex6.st))
  ∧ PyDict.keys (currentedges (init None))
      `prefix_of` PyDict.keys (currentedges Ex6.st)
  ∧ PyDict.keys (currentedges Ex6.st)
      `prefix_of` PyDict.keys (currentedges Ex6.st').
Proof.
  split; [reflexivity|].
  pose proof (C6_edge_accumulator eclmonth2num true (init None) Ex6.st Ex6.st'
                Ex6.deck Ex6.kw eq_refl eq_refl) as (H1 & H2 & H3 & _).
  exact (conj H1 (conj H2 H3)).
Defined.

(** ** C2: the dump after the loop *)

(** The dump after the loop looks at the two hierarchy flags only. *)
Lemma final_records_tree_flags st :
  found_gruptree st || found_welspecs st = true →
  final_records st
  = gruptreerecords st ++ snapshot (date st) (grupnet_df st) (currentedges st).
Proof. unfold final_records. by intros ->. Qed.

Lemma final_records_grupnet_only st :
  found_gruptree st = false → found_welspecs st = false →
  final_records st = gruptreerecords st.
Proof. unfold final_records. by intros -> ->. Qed.

(** C2, at the failing deck START, GRUPTREE, DATES, GRUPNET: the scan ends
    with the attribute flag set, a non-empty accumulator and the date
    2020-02-01, yet the returned rows are those of the DATES dump alone;
    no row carries 2020-02-01 or the ALQ value of the last block. *)
Theorem C2_grupnet_after_last_date_not_emitted :
  let deck := [START [Ex.jan1]; GRUPTREE [("GRP1", "FIELD")];
               DATES [Ex.feb1]; GRUPNET [Ex.grp1_alq5]] in
  (∃ st, scan eclmonth2num true deck (init None) = Ok st
         ∧ found_grupnet st = true
         ∧ PyDict.keys (currentedges st) = [("GRP1", "FIELD")]
         ∧ date st = Some 737456)
  ∧ deck2df eclmonth2num deck None true
    = Ok [mkrow (Some 737425) "GRP1" "FIELD" GRUPTREE_t []].
Proof. split; [eexists; repeat split|reflexivity]. Qed.

(** ** C4: TSTEP before any date *)

(** C4, at the failing deck: a TSTEP of 10 days comes first, nothing has
    set a date and no start date is passed.  The fallback date is assigned
    only inside the dump, which does not fire on an empty accumulator, so
    the addition is attempted on [None] and the call raises.  With an edge
    in front of the TSTEP the dump fires, and the row it emits carries
    1900-01-01, not 1900-01-11. *)
Theorem C4_tstep_first_raises (parse_ecl_month : string → option Z) :
  deck2df parse_ecl_month [TSTEP [[10]]; GRUPTREE [("W1", "GRP1")]] None true
  = Raise TypeError
  ∧ deck2df parse_ecl_month [GRUPTREE [("W1", "GRP1")]; TSTEP [[10]]] None true
    = Ok [mkrow (Some 693596) "W1" "GRP1" GRUPTREE_t []]
  ∧ PyDate.date 1900 1 1 = Ok 693596
  ∧ PyDate.date 1900 1 11 = Ok 693606.
Proof. repeat split. Qed.

(** ** C3: a TSTEP that sums to zero or less *)

Lemma tstep_rec_nonpositive st steplist :
  foldl Z.add 0 steplist ≤ 0 →
  tstep_rec st steplist = Fatal (foldl Z.add 0 steplist).
Proof.
  intros Hle. unfold tstep_rec.
  by rewrite (proj2 (Z.leb_le _ _) Hle).
Qed.

Lemma for_each_tstep_rec_aborts recs st :
  Exists (λ steplist, foldl Z.add 0 steplist ≤ 0) recs →
  ∀ st', for_each tstep_rec recs st ≠ Ok st'.
Proof.
  intros Hex. revert st.
  induction Hex as [r recs Hr|r recs Hex IH]; intros st st'; simpl.
  - by rewrite tstep_rec_nonpositive.
  - destruct (tstep_rec st r) as [s1| |]; simpl; [apply IH|done..].
Qed.

(** C3, as stated, fails: the second TSTEP of this deck sums to 0 days, but
    no date is set and no start date is passed, so the first TSTEP already
    raises on the addition to [None]; the total of the second is never
    reported.  No rows are returned all the same. *)
Lemma C3_earlier_exception_preempts_report :
  foldl Z.add 0 [0] ≤ 0
  ∧ deck2df eclmonth2num [TSTEP [[1]]; TSTEP [[0]]] None true
    = Raise TypeError
  ∧ ∀ days, deck2df eclmonth2num [TSTEP [[1]]; TSTEP [[0]]] None true
            ≠ Fatal days.
Proof. split; [done|]. split; [reflexivity|]. intros days. discriminate. Qed.

(** C3 (amended): a deck that contains a TSTEP keyword with a record summing
    to zero or less never returns rows, whatever precedes that keyword and
    whatever edges were defined before it.  When the scan gets as far as the
    offending record, that is when no earlier keyword or record has ended
    the call, the call ends in the critical log carrying that record's
    total, and the caller receives [None]. *)
Theorem C3_nonpositive_tstep_aborts
    (parse_ecl_month : string → option Z) (welspecs : bool)
    (startdate : option Z) (pre post : list keyword) (recs : list (list Z)) :
  Exists (λ steplist, foldl Z.add 0 steplist ≤ 0) recs →
  let deck := pre ++ TSTEP recs :: post in
  (∀ rows, deck2df parse_ecl_month deck startdate welspecs ≠ Ok rows)
  ∧ (∀ st good bad rest st1,
       scan parse_ecl_month welspecs pre (init startdate) = Ok st →
       recs = good ++ bad :: rest →
       for_each tstep_rec good (dump st) = Ok st1 →
       foldl Z.add 0 bad ≤ 0 →
       deck2df parse_ecl_month deck startdate welspecs
       = Fatal (foldl Z.add 0 bad)).
Proof.
  intros Hex deck. unfold deck, deck2df, scan.
  rewrite for_each_app. split.
  - intros rows.
    destruct (for_each _ pre _) as [st| |]; simpl; [|done..].
    rewrite step_date_advancing by done. simpl.
    destruct (for_each tstep_rec recs (dump st)) as [s1| |] eqn:Hrun;
      simpl; [|done..].
    by apply for_each_tstep_rec_aborts in Hrun.
  - intros st good bad rest st1 Hpre -> Hgood Hbad.
    unfold scan in Hpre. rewrite Hpre. simpl.
    rewrite step_date_advancing by done. simpl.
    rewrite for_each_app, Hgood. simpl.
    by rewrite tstep_rec_nonpositive.
Qed.

Lemma C3_nonpositive_tstep_aborts_witness :
  Exists (λ steplist, foldl Z.add 0 steplist ≤ 0) [[1; -1]]
  ∧ deck2df eclmonth2num
      ([START [Ex.jan1]; GRUPTREE [("W1", "GRP1")]]
         ++ TSTEP [[1; -1]] :: [GRUPTREE [("W2", "GRP1")]]) None true
    = Fatal 0.
Proof.
  assert (Exists (λ steplist, foldl Z.add 0 steplist ≤ 0) [[1; -1]]) as Hex.
  { apply Exists_cons_hd. simpl. lia. }
  split; [exact Hex|].
  refine (proj2 (C3_nonpositive_tstep_aborts eclmonth2num true None
                   [START [Ex.jan1]; GRUPTREE [("W1", "GRP1")]]
                   [GRUPTREE [("W2", "GRP1")]] [[1; -1]] Hex)
            _ [] [1; -1] [] _ eq_refl eq_refl eq_refl _).
  simpl. lia.
Defined.

(** ** C5: the network attribute table *)

Lemma last_named_is_Some k records :
  is_Some (last_named k records) ↔ k ∈ map Frame.name_of records.
Proof.
  unfold last_named. rewrite last_is_Some. split.
  - intros Hne. destruct (filter _ records) as [|r l] eqn:Hf; [done|].
    assert (r ∈ filter (λ r, Frame.name_of r = k) records) as Hin.
    { rewrite Hf. apply list_elem_of_here. }
    apply list_elem_of_filter in Hin as [<- Hin].
    by apply list_elem_of_fmap_2.
  - intros (r & -> & Hin)%list_elem_of_fmap Hnil.
    assert (r ∈ filter (λ r', Frame.name_of r' = Frame.name_of r) records) as Hf.
    { by apply list_elem_of_filter. }
    rewrite Hnil in Hf. by apply elem_of_nil in Hf.
Qed.

(** After [drop_duplicates(subset="NAME", keep="last")] and
    [set_index("NAME")], the row found under an index value is the last
    record with that NAME. *)
Lemma get_drop_duplicates_last k records :
  PyDict.get k (map (λ r, (Frame.name_of r, r))
                    (Frame.drop_duplicates_last records))
  = last_named k records.
Proof.
  induction records as [|r rest IH]; [done|].
  cbn [Frame.drop_duplicates_last]. unfold last_named in *.
  rewrite filter_cons.
  destruct (decide (Frame.name_of r ∈ map Frame.name_of rest)) as [Hin|Hnin].
  - rewrite IH. destruct (decide (Frame.name_of r = k)) as [<-|Hne]; [|done].
    rewrite last_cons.
    apply last_named_is_Some in Hin as [r' Hr']. unfold last_named in Hr'.
    by rewrite Hr'.
  - cbn [map PyDict.get]. destruct (decide (k = Frame.name_of r)) as [->|Hne].
    + rewrite decide_True by done. rewrite last_cons.
      destruct (last _) as [r'|] eqn:Hl; [|done].
      exfalso. apply Hnin, last_named_is_Some. unfold last_named.
      by rewrite Hl.
    + rewrite decide_False by done. apply IH.
Qed.

Lemma elem_of_concat {A} (x : A) (ls : list (list A)) :
  x ∈ concat ls ↔ ∃ l, l ∈ ls ∧ x ∈ l.
Proof.
  induction ls as [|l ls IH]; simpl.
  - split; [by intros ?%elem_of_nil|]. by intros (l & ?%elem_of_nil & _).
  - rewrite elem_of_app, IH. split.
    + intros [Hx|(l' & Hl' & Hx)].
      * exists l. split; [apply list_elem_of_here|done].
      * exists l'. split; [by apply list_elem_of_further|done].
    + intros (l' & [->|Hl']%elem_of_cons & Hx); [by left|right; eauto].
Qed.

Lemma elem_of_columns_of c records :
  c ∈ Frame.columns_of records ↔ ∃ r, r ∈ records ∧ c ∈ PyDict.keys r.
Proof.
  unfold Frame.columns_of.
  rewrite elem_of_reverse, elem_of_remove_dups, elem_of_reverse.
  rewrite elem_of_concat. split.
  - intros (ks & (r & -> & Hr)%list_elem_of_fmap & Hc). eauto.
  - intros (r & Hr & Hc). exists (PyDict.keys r). split; [|done].
    by apply list_elem_of_fmap_2.
Qed.

Lemma get_map_columns (cols : list string) (r : list (string * value)) key v :
  PyDict.get key (map (λ c, (c, PyDict.get c r)) cols) = Some v
  ↔ key ∈ cols ∧ v = PyDict.get key r.
Proof.
  induction cols as [|c cols IH]; simpl.
  - split; [done|]. by intros [?%elem_of_nil _].
  - destruct (decide (key = c)) as [->|Hne].
    + split; [intros [= <-]; split; [apply list_elem_of_here|done]|].
      by intros [_ ->].
    + rewrite IH. split; intros [Hin ->]; (split; [|done]).
      * by apply list_elem_of_further.
      * by apply elem_of_cons in Hin as [?|?].
Qed.

(** C5, as stated, fails: GRP1 is defined with ALQ=5 in the first GRUPNET
    block, and the second block names GRP2 only.  The rows emitted after
    the second block still carry ALQ=5 for GRP1. *)
Lemma C5_earlier_block_entry_kept :
  deck2df eclmonth2num
    [START [Ex.jan1]; GRUPTREE [("GRP1", "FIELD"); ("GRP2", "FIELD")];
     GRUPNET [Ex.grp1_alq5]; DATES [Ex.feb1];
     GRUPNET [Ex.grp2_plain]; DATES [Ex.mar1]] None true
  = Ok [ mkrow (Some 737425) "GRP1" "FIELD" GRUPTREE_t [("ALQ", Some (VNum 5))];
         mkrow (Some 737425) "GRP2" "FIELD" GRUPTREE_t [];
         mkrow (Some 737456) "GRP1" "FIELD" GRUPTREE_t
           [("ALQ", Some (VNum 5)); ("TERMINAL_PRESSURE", None)];
         mkrow (Some 737456) "GRP2" "FIELD" GRUPTREE_t
           [("ALQ", None); ("TERMINAL_PRESSURE", Some (VNum 80))] ].
Proof. reflexivity. Qed.

(** C5 (amended): a GRUPNET block appends its records to the records of
    all earlier blocks, and the table is rebuilt from that whole list,
    keeping the last record per NAME.  A name is in the table exactly when
    some record so far carries it, and the fields joined for it are those of
    its last record and no others: a field that this record does not set is
    joined as missing, whatever earlier records said. *)
Theorem C5_grupnet_table_rebuilt
    (parse_ecl_month : string → option Z) (welspecs : bool)
    (st st' : state) (recs : list (list (string * value))) :
  step parse_ecl_month welspecs st (GRUPNET recs) = Ok st' →
  let records := grupnetrecords st ++ map grupnet_data recs in
  grupnetrecords st' = records
  ∧ found_grupnet st' = true
  ∧ (∀ name, Frame.in_index name (grupnet_df st') = true
             ↔ is_Some (last_named (Some (VStr name)) records))
  ∧ (∀ name r, last_named (Some (VStr name)) records = Some r →
       ∀ key v, PyDict.get key (Frame.loc name (grupnet_df st')) = Some (Some v)
                ↔ key ≠ "NAME" ∧ PyDict.get key r = Some v).
Proof.
  intros Hstep records. rewrite step_other in Hstep by done.
  cbn [record_kw] in Hstep. fold records in Hstep.
  apply bind_Ok in Hstep as (df & Hdf & [= <-]). cbn.
  unfold Frame.of_records in Hdf.
  destruct (decide ("NAME" ∈ Frame.columns_of records)) as [_|]; [|done].
  injection Hdf as <-.
  split; [done|]. split; [done|]. split.
  - intros name. unfold Frame.in_index. cbn.
    rewrite bool_decide_eq_true, <-get_drop_duplicates_last.
    symmetry. apply get_is_Some.
  - intros name r Hlast key v. unfold Frame.loc. cbn.
    rewrite get_drop_duplicates_last, Hlast, get_map_columns.
    rewrite list_elem_of_filter, elem_of_columns_of. split.
    + intros [[Hne _] Hv]. done.
    + intros [Hne Hv]. split; [|done]. split; [done|].
      exists r. split.
      * unfold last_named in Hlast. apply last_Some_elem_of in Hlast.
        by apply list_elem_of_filter in Hlast as [_ ?].
      * apply get_is_Some. by eexists.
Qed.

Lemma C5_grupnet_table_rebuilt_witness :
  grupnetrecords Ex5.st' = [Ex.grp1_alq5; Ex.grp1_plain]
  ∧ Frame.loc "GRP1" (grupnet_df Ex5.st')
    = [("ALQ", None); ("TERMINAL_PRESSURE", Some (VNum 90))]
  ∧ (∀ key v,
       PyDict.get key (Frame.loc "GRP1" (grupnet_df Ex5.st')) = Some (Some v)
       ↔ key ≠ "NAME" ∧ PyDict.get key Ex.grp1_plain = Some v).
Proof.
  pose proof (C5_grupnet_table_rebuilt eclmonth2num true Ex5.st Ex5.st'
                [Ex.grp1_plain] eq_refl) as (H1 & _ & _ & H4).
  split; [exact H1|]. split; [reflexivity|].
  exact (H4 "GRP1" Ex.grp1_plain eq_refl).
Defined.

(** ** C7: the order of the DATE column *)

Lemma date_le_refl d : date_le d d.
Proof. destruct d; simpl; [lia|done]. Qed.

Lemma same_date_nondecreasing d (rows : list rec_dict) :
  (∀ r, r ∈ rows → DATE r = d) → nondecreasing rows.
Proof.
  unfold nondecreasing. induction rows as [|r rows IH]; intros Hd.
  - constructor.
  - constructor.
    + apply IH. intros r' Hr'. apply Hd. by apply list_elem_of_further.
    + apply Forall_forall. intros r' Hr'.
      rewrite (Hd r), (Hd r'); [apply date_le_refl| |].
      * by apply list_elem_of_further.
      * apply list_elem_of_here.
Qed.

Lemma snapshot_dates d df edges r : r ∈ snapshot d df edges → DATE r = d.
Proof.
  unfold snapshot. intros ([[c p] o] & -> & _)%list_elem_of_fmap. done.
Qed.

Lemma dump_rows_behind_clock st :
  rows_behind_clock st → rows_behind_clock (dump st).
Proof.
  intros [Hrows Hsorted]. unfold dump.
  destruct (negb _ && pending st); [|done].
  set (d := default PyDate.epoch1900 (date st)).
  assert (∀ r, r ∈ gruptreerecords st → ∃ x, DATE r = Some x ∧ x ≤ d) as Hold.
  { intros r (x & y & Hx & Hy & Hle)%Hrows. exists x. split; [done|].
    unfold d. by rewrite Hy. }
  assert ((let '(d0, msgs) :=
             match date st with
             | Some d0 => (d0, [])
             | None => (PyDate.epoch1900, [WarnNoDateParsed; WarnUsing1900])
             end in
           mkstate (Some d0)
             (gruptreerecords st
                ++ snapshot (Some d0) (grupnet_df st) (currentedges st))
             (grupnetrecords st) (currentedges st) (grupnet_df st)
             false false false (log st ++ msgs))
          = mkstate (Some d)
              (gruptreerecords st
                 ++ snapshot (Some d) (grupnet_df st) (currentedges st))
              (grupnetrecords st) (currentedges st) (grupnet_df st)
              false false false
              (log st ++ match date st with
                         | Some _ => []
                         | None => [WarnNoDateParsed; WarnUsing1900]
                         end)) as ->.
  { unfold d. by destruct (date st). }
  split; cbn.
  - intros r [Hr|Hr]%elem_of_app.
    + destruct (Hold r Hr) as (x & Hx & Hle). eauto.
    + apply snapshot_dates in Hr. exists d, d. repeat split; [done|lia].
  - apply StronglySorted_app_2; [|done|].
    + intros r1 r2 Hr1 Hr2. destruct (Hold r1 Hr1) as (x & -> & Hle).
      by rewrite (snapshot_dates _ _ _ _ Hr2).
    + eapply same_date_nondecreasing, snapshot_dates.
Qed.

Lemma final_records_nondecreasing st :
  rows_behind_clock st → nondecreasing (final_records st).
Proof.
  intros [Hrows Hsorted]. unfold final_records.
  destruct (_ || _); [|done].
  apply StronglySorted_app_2; [|done|].
  - intros r1 r2 Hr1 Hr2. destruct (Hrows r1 Hr1) as (x & y & -> & Hy & Hle).
    by rewrite (snapshot_dates _ _ _ _ Hr2), Hy.
  - eapply same_date_nondecreasing, snapshot_dates.
Qed.

Section clock.
Variable parse_ecl_month : string → option Z.
Variable welspecs : bool.

Lemma step_rows_behind_clock st kw st1 :
  step parse_ecl_month welspecs st kw = Ok st1 →
  (date_advancing kw = true → opt_leb (date (dump st)) (date st1) = true) →
  rows_behind_clock st → rows_behind_clock st1.
Proof.
  intros Hstep Hclock Hinv. destruct (date_advancing kw) eqn:Hkw.
  - apply dump_rows_behind_clock in Hinv as [Hrows Hsorted].
    specialize (Hclock eq_refl).
    rewrite step_date_advancing in Hstep by done.
    apply advance_same in Hstep as (Hr & _).
    unfold rows_behind_clock. rewrite Hr. split; [|done].
    intros r (x & y & Hx & Hy & Hle)%Hrows. rewrite Hy in Hclock.
    destruct (date st1) as [y1|]; [|done]. simpl in Hclock.
    exists x, y1. repeat split; [done|lia].
  - rewrite step_other in Hstep by done.
    apply record_kw_records in Hstep as [Hr Hd].
    unfold rows_behind_clock. by rewrite Hr, Hd.
Qed.

Lemma scan_rows_behind_clock deck st st1 :
  clock_never_back parse_ecl_month welspecs deck st = true →
  scan parse_ecl_month welspecs deck st = Ok st1 →
  rows_behind_clock st → rows_behind_clock st1.
Proof.
  unfold scan. revert st.
  induction deck as [|kw deck IH]; intros st; simpl.
  - by intros _ [= <-].
  - destruct (step _ _ st kw) as [s1| |] eqn:Hstep; simpl; [|done..].
    intros [Hkw Hrest]%andb_true_iff Hscan Hinv.
    apply (IH s1); [done..|].
    eapply step_rows_behind_clock; [done| |done].
    intros Hd. by rewrite Hd in Hkw.
Qed.
End clock.

(** C7, as stated, fails: START sets 2020-02-01, an edge is defined, and
    DATES then sets 2020-01-01.  The rows come out dated February first and
    January after. *)
Lemma C7_dates_keyword_moves_back :
  deck2df eclmonth2num Ex7back.deck None true = Ok Ex7back.rows
  ∧ PyDate.date 2020 2 1 = Ok 737456
  ∧ PyDate.date 2020 1 1 = Ok 737425
  ∧ ¬ nondecreasing Ex7back.rows.
Proof.
  split; [reflexivity|]. split; [reflexivity|]. split; [reflexivity|].
  intros Hs. apply StronglySorted_inv in Hs as [_ Hall].
  apply Forall_cons in Hall as [Hle _]. simpl in Hle. lia.
Qed.

(** C7 (amended): for every deck in which no date-advancing keyword sets a
    date earlier than the date in force when its date change is applied, the
    DATE values of the rows deck2df returns are non-decreasing in emission
    order. *)
Theorem C7_dates_nondecreasing
    (parse_ecl_month : string → option Z) (welspecs : bool)
    (startdate : option Z) (deck : list keyword) (rows : list rec_dict) :
  clock_never_back parse_ecl_month welspecs deck (init startdate) = true →
  deck2df parse_ecl_month deck startdate welspecs = Ok rows →
  nondecreasing rows.
Proof.
  intros Hclock (st & Hscan & [= <-])%bind_Ok.
  apply final_records_nondecreasing.
  eapply scan_rows_behind_clock; [done..|].
  split; [by intros r ?%elem_of_nil|constructor].
Qed.

Lemma C7_dates_nondecreasing_witness :
  map DATE Ex7.rows
  = [Some 737425; Some 737456; Some 737456;
     Some 737485; Some 737485; Some 737485]
  ∧ nondecreasing Ex7.rows.
Proof.
  split; [reflexivity|].
  apply (C7_dates_nondecreasing eclmonth2num true None Ex7.deck Ex7.rows).
  - reflexivity.
  - reflexivity.
Defined.

(** ** gruptreedf2dict: the shared store *)

Section dict_more.
Context {K V : Type} `{EqDecision K}.
Implicit Types (d : list (K * V)) (k : K) (v : V).

Lemma get_app d1 d2 k :
  PyDict.get k (d1 ++ d2)
  = match PyDict.get k d1 with
    | Some v => Some v
    | None => PyDict.get k d2
    end.
Proof.
  induction d1 as [|[k0 v0] d1 IH]; [done|].
  cbn [app PyDict.get]. by destruct (decide (k = k0)).
Qed.

Lemma elem_of_set d k v k' v' :
  (k', v') ∈ PyDict.set k v d → (k', v') = (k, v) ∨ (k', v') ∈ d.
Proof.
  induction d as [|[k0 v0] d IH]; cbn [PyDict.set].
  - intros ->%list_elem_of_singleton. by left.
  - destruct (decide (k = k0)) as [->|Hne].
    + intros [->|Hin]%elem_of_cons; [by left|].
      right. by apply list_elem_of_further.
    + intros [->|Hin]%elem_of_cons.
      * right. apply list_elem_of_here.
      * destruct (IH Hin) as [->|?]; [by left|].
        right. by apply list_elem_of_further.
Qed.
End dict_more.

Lemma mapM_elem {A B} (f : A → option B) (l : list A) (k : list B) :
  mapM f l = Some k → ∀ y, y ∈ k ↔ ∃ x, x ∈ l ∧ f x = Some y.
Proof.
  intros Hm%mapM_Some. induction Hm as [|x y l k Hxy Hm IH]; intros y'.
  - split; [by intros ?%elem_of_nil|]. by intros (x & ?%elem_of_nil & _).
  - rewrite elem_of_cons, IH. split.
    + intros [->|(x' & Hx' & Hf)].
      * exists x. split; [apply list_elem_of_here|done].
      * exists x'. split; [by apply list_elem_of_further|done].
    + intros (x' & [->|Hx']%elem_of_cons & Hf).
      * left. congruence.
      * right. eauto.
Qed.

Lemma mapM_concat_elem {A B} (f : A → option (list B)) (l : list A) pss :
  mapM f l = Some pss →
  ∀ e, e ∈ concat pss ↔ ∃ x ps, x ∈ l ∧ f x = Some ps ∧ e ∈ ps.
Proof.
  intros Hm e. rewrite elem_of_concat. split.
  - intros (ps & Hps & He).
    apply (mapM_elem _ _ _ Hm) in Hps as (x & Hx & Hf). eauto.
  - intros (x & ps & Hx & Hf & He). exists ps. split; [|done].
    apply (mapM_elem _ _ _ Hm). eauto.
Qed.

Lemma elem_of_flat_map {A B} (f : A → list B) (l : list A) (y : B) :
  y ∈ flat_map f l ↔ ∃ x, x ∈ l ∧ y ∈ f x.
Proof.
  induction l as [|x l IH]; simpl.
  - split; [by intros ?%elem_of_nil|]. by intros (x & ?%elem_of_nil & _).
  - rewrite elem_of_app, IH. split.
    + intros [Hy|(x' & Hx' & Hy)].
      * exists x. split; [apply list_elem_of_here|done].
      * exists x'. split; [by apply list_elem_of_further|done].
    + intros (x' & [->|Hx']%elem_of_cons & Hy); [by left|right; eauto].
Qed.

Lemma get_touch name s n :
  PyDict.get n (touch name s)
  = match PyDict.get n s with
    | Some kids => Some kids
    | None => if decide (n = name) then Some [] else None
    end.
Proof.
  unfold touch. destruct (PyDict.get name s) as [kids|] eqn:Hname.
  - destruct (PyDict.get n s) eqn:Hn; [done|].
    destruct (decide (n = name)) as [->|]; [congruence|done].
  - rewrite get_app. destruct (PyDict.get n s); [done|]. simpl.
    by destruct (decide (n = name)).
Qed.

Lemma kids_of_touch name s n : kids_of (touch name s) n = kids_of s n.
Proof.
  unfold kids_of. rewrite get_touch.
  destruct (PyDict.get n s); [done|]. by destruct (decide (n = name)).
Qed.

Lemma kids_of_link s child parent n :
  kids_of (link s (child, parent)) n
  = if decide (n = parent) then PyDict.set child child (kids_of s parent)
    else kids_of s n.
Proof.
  unfold link, kids_of at 1. rewrite get_set.
  destruct (decide (n = parent)) as [->|Hne]; simpl.
  - f_equal. fold (kids_of (touch parent (touch child s)) parent).
    by rewrite !kids_of_touch.
  - fold (kids_of (touch parent (touch child s)) n). by rewrite !kids_of_touch.
Qed.

Lemma link_store_of s edges child parent :
  store_of s edges → store_of (link s (child, parent)) (edges ++ [(child, parent)]).
Proof.
  intros [Hsound Hcomplete]. split.
  - intros p c r. rewrite kids_of_link, elem_of_app, list_elem_of_singleton.
    destruct (decide (p = parent)) as [->|Hne].
    + intros [[= -> ->]|Hin]%elem_of_set; [by auto|].
      destruct (Hsound _ _ _ Hin) as [-> ?]. auto.
    + intros Hin. destruct (Hsound _ _ _ Hin) as [-> ?]. auto.
  - intros c p. rewrite kids_of_link, elem_of_app, list_elem_of_singleton.
    intros Hin. destruct (decide (p = parent)) as [->|Hne].
    + apply get_Some_elem. rewrite get_set.
      destruct (decide (c = child)) as [->|Hc]; [done|].
      destruct Hin as [Hin|Heq]; [|by simplify_eq].
      apply Hcomplete in Hin.
      destruct (PyDict.get c (kids_of s parent)) as [r|] eqn:Hget.
      * apply get_Some_elem, Hsound in Hget as [-> _]. done.
      * exfalso. assert (c ∈ PyDict.keys (kids_of s parent)) as Hk.
        { unfold PyDict.keys. by apply (list_elem_of_fmap_2 fst) in Hin. }
        apply get_is_Some in Hk as [? Hk]. congruence.
    + destruct Hin as [Hin|Heq]; [by apply Hcomplete|by simplify_eq].
Qed.

Lemma foldl_link_store_of edges :
  store_of (foldl link [] edges) edges.
Proof.
  induction edges as [|[c p] edges IH] using rev_ind.
  - split; [by intros p c r ?%elem_of_nil|by intros c p ?%elem_of_nil].
  - rewrite foldl_snoc. by apply link_store_of.
Qed.

Lemma mapM_elem_l {A B} (f : A → option B) (l : list A) (k : list B) x :
  mapM f l = Some k → x ∈ l → ∃ y, f x = Some y ∧ y ∈ k.
Proof.
  intros Hm Hx.
  assert (is_Some (f x)) as [y Hy].
  { assert (is_Some (mapM f l)) as Hs by (by eexists).
    apply mapM_is_Some in Hs. rewrite Forall_forall in Hs. by apply Hs. }
  exists y. split; [done|]. apply (mapM_elem _ _ _ Hm). eauto.
Qed.

Lemma below_trans edges a b c :
  below edges a b → below edges b c → below edges a c.
Proof.
  induction 1 as [|n c' p Hedge Hb IH]; [done|].
  intros Hc. eapply below_step; eauto.
Qed.

Section nesting.
Variables (s : store) (edges : list (string * string)).
Hypothesis Hstore : store_of s edges.

(** The nested dictionary of a name lists exactly the edges at or below
    that name. *)
Lemma nested_pairs fuel n t :
  nested fuel s n = Some t →
  ∀ e, e ∈ tree_pairs n t ↔ e ∈ edges ∧ below edges n e.2.
Proof.
  revert n t. induction fuel as [|k IH]; intros n t; [done|].
  cbn [nested]. fold (kids_of s n).
  destruct (mapM _ (kids_of s n)) as [kids'|] eqn:Hm; [|done].
  intros [= <-] [c p]. cbn [tree_pairs]. rewrite elem_of_flat_map.
  destruct Hstore as [Hsound Hcomplete]. split.
  - intros ([c' t'] & Hin & He).
    apply (mapM_elem _ _ _ Hm) in Hin as ([c'' r] & Hkid & Hf).
    simpl in Hf. destruct (nested k s r) as [t''|] eqn:Hn; [|done].
    simpl in Hf. injection Hf as -> ->.
    apply Hsound in Hkid as [-> Hedge]. simpl in He.
    apply elem_of_cons in He as [[= -> ->]|He].
    + split; [done|constructor].
    + apply (IH _ _ Hn) in He as [? ?]. split; [done|].
      by eapply below_step.
  - intros [He Hb]. simpl in Hb. inversion Hb as [|? c' ? Hedge Hb']; subst.
    + apply Hcomplete in He.
      destruct (mapM_elem_l _ _ _ _ Hm He) as ([c' t'] & Hf & Hin).
      simpl in Hf. destruct (nested k s c) as [t''|]; [|done].
      simpl in Hf. injection Hf as <- <-.
      exists (c, t''). split; [done|]. apply list_elem_of_here.
    + apply Hcomplete in Hedge.
      destruct (mapM_elem_l _ _ _ _ Hm Hedge) as ([c'' t'] & Hf & Hin).
      simpl in Hf. destruct (nested k s c') as [t''|] eqn:Hn; [|done].
      simpl in Hf. injection Hf as <- <-.
      exists (c', t''). split; [done|]. simpl.
      apply list_elem_of_further. apply (IH _ _ Hn). by split.
Qed.

Variable rank : string → nat.
Variable bound : nat.
Hypothesis Hrank :
  ∀ c p, (c, p) ∈ edges → (rank c < rank p < bound)%nat.

(** In an acyclic edge list the nesting below a name is finite. *)
Lemma nested_total fuel n :
  (rank n < fuel)%nat → is_Some (nested fuel s n).
Proof.
  revert n. induction fuel as [|k IH]; intros n Hn; [lia|].
  cbn [nested]. fold (kids_of s n).
  assert (is_Some (mapM (λ kv : string * string,
                            t ← nested k s kv.2; Some (kv.1, t))
                        (kids_of s n))) as [kids' ->]; [|by eexists].
  apply mapM_is_Some, Forall_forall. intros [c r] Hkid.
  destruct Hstore as [Hsound _]. apply Hsound in Hkid as [-> Hedge].
  apply Hrank in Hedge. simpl.
  destruct (IH c) as [t ->]; [lia|]. by eexists.
Qed.

(** In an acyclic edge list every parent is at or below a root. *)
Lemma root_above p :
  p ∈ edges.*2 →
  ∃ r, r ∈ (list_to_set edges.*2 ∖ list_to_set edges.*1 : gset string)
       ∧ below edges r p.
Proof.
  assert (∀ k p, (bound - rank p < k)%nat → p ∈ edges.*2 →
            ∃ r, r ∈ (list_to_set edges.*2 ∖ list_to_set edges.*1
                      : gset string)
                 ∧ below edges r p) as Hind; [|by eauto].
  clear p. induction k as [|k IH]; intros p Hk Hp; [lia|].
  destruct (decide (p ∈ edges.*1)) as [Hchild|Hroot].
  - apply list_elem_of_fmap in Hchild as ([c q] & -> & Hedge). simpl in *.
    pose proof (Hrank _ _ Hedge) as Hlt.
    destruct (IH q) as (r & Hr & Hb).
    { lia. }
    { by apply (list_elem_of_fmap_2 snd) in Hedge. }
    exists r. split; [done|]. eapply below_trans; [done|].
    eapply below_step; [done|constructor].
  - exists p. split; [|constructor].
    apply elem_of_difference. by rewrite !elem_of_list_to_set.
Qed.
End nesting.

(** ** C8: from the forest back to the edge list *)

(** C8, as stated, fails on a cycle: with the rows (A, B) and (B, A) every
    name is a child, no name is a root, the returned list is empty and no
    pair can be read back from it. *)
Lemma C8_cycle_has_no_root :
  gruptreedf2dict Ex8.cycle
  = Trees [] [("A", [("B", "B")]); ("B", [("A", "A")])]
  ∧ (∀ fuel, forest_pairs fuel (gruptreedf2dict Ex8.cycle) = Some [])
  ∧ ("A", "B") ∈ map (λ row, (CHILD row, PARENT row)) Ex8.cycle.
Proof.
  split; [by vm_compute|]. split; [done|]. apply list_elem_of_here.
Qed.

(** C8 (amended): for the rows of an acyclic hierarchy (some ranking of the
    names puts every child strictly below its parent), the nested
    dictionaries returned by gruptreedf2dict are finite, and the
    (child, parent) pairs read back from them are, as a set, the
    (child, parent) pairs of the rows. *)
Theorem C8_forest_round_trip
    (df : list rec_dict) (rank : string → nat) (fuel : nat) :
  (∀ row, row ∈ df → (rank (CHILD row) < rank (PARENT row) < fuel)%nat) →
  ∃ pairs,
    forest_pairs fuel (gruptreedf2dict df) = Some pairs
    ∧ ∀ child parent,
        (child, parent) ∈ pairs
        ↔ (child, parent) ∈ map (λ row, (CHILD row, PARENT row)) df.
Proof.
  intros Hdf. unfold gruptreedf2dict.
  destruct (bool_decide (df = [])) eqn:Hempty.
  { apply bool_decide_eq_true in Hempty as ->. by exists []. }
  set (edges := map (λ row, (CHILD row, PARENT row)) df).
  set (s := foldl link [] edges).
  set (roots := (list_to_set edges.*2 ∖ list_to_set edges.*1 : gset string)).
  set (m := map (λ root : string, (root, root)) (elements roots)).
  assert (store_of s edges) as Hstore by apply foldl_link_store_of.
  assert (∀ c p, (c, p) ∈ edges → (rank c < rank p < fuel)%nat) as Hrank.
  { intros c p (row & [= -> ->] & Hrow)%list_elem_of_fmap. by apply Hdf. }
  assert (∀ r, r ∈ roots → ∃ t, nested fuel s r = Some t) as Htotal.
  { intros r [Hp _]%elem_of_difference.
    apply elem_of_list_to_set, list_elem_of_fmap in Hp as ([c p] & -> & Hedge).
    apply (nested_total s edges Hstore rank fuel Hrank).
    apply Hrank in Hedge. simpl. lia. }
  set (h := λ kv : string * string, tree_pairs kv.1 <$> nested fuel s kv.2).
  assert (is_Some (mapM h m)) as [qss Hqss].
  { apply mapM_is_Some, Forall_forall.
    intros kv (r & -> & Hr%elem_of_elements)%list_elem_of_fmap.
    destruct (Htotal r Hr) as [t Ht]. unfold h. simpl. rewrite Ht. by eexists. }
  set (g := λ m' : list (string * string), (λ ps, concat ps) <$> mapM h m').
  assert (g m = Some (concat qss)) as Hg.
  { unfold g. by rewrite Hqss. }
  assert (is_Some (mapM g (map (λ _ : string, m) (elements roots))))
    as [pss Hpss].
  { apply mapM_is_Some, Forall_forall.
    intros m' (r & -> & _)%list_elem_of_fmap. simpl. rewrite Hg. by eexists. }
  exists (concat pss). cbn [forest_pairs]. fold h g. rewrite Hpss.
  split; [done|]. intros c p.
  rewrite (mapM_concat_elem _ _ _ Hpss). split.
  - intros (m' & ps & (r0 & -> & _)%list_elem_of_fmap & Hgm & He).
    rewrite Hg in Hgm. injection Hgm as <-.
    apply (mapM_concat_elem _ _ _ Hqss) in He as (kv & qs & Hkv & Hh & He).
    apply list_elem_of_fmap in Hkv as (r & -> & Hr%elem_of_elements).
    unfold h in Hh. simpl in Hh.
    destruct (nested fuel s r) as [t|] eqn:Ht; [|done].
    injection Hh as <-.
    by apply (nested_pairs s edges Hstore _ _ _ Ht) in He as [? _].
  - intros Hedge.
    destruct (root_above edges rank fuel Hrank p) as (r & Hr & Hb).
    { by apply (list_elem_of_fmap_2 snd) in Hedge. }
    destruct (Htotal r Hr) as [t Ht].
    exists m, (concat qss). split; [|split; [done|]].
    { apply list_elem_of_fmap. exists r. split; [done|].
      by apply elem_of_elements. }
    apply (mapM_concat_elem _ _ _ Hqss).
    exists (r, r), (tree_pairs r t). split; [|split].
    + apply list_elem_of_fmap. exists r. split; [done|].
      by apply elem_of_elements.
    + unfold h. simpl. by rewrite Ht.
    + by apply (nested_pairs s edges Hstore _ _ _ Ht).
Qed.

Lemma C8_forest_round_trip_witness :
  ∃ pairs,
    forest_pairs 3 (gruptreedf2dict Ex8.df) = Some pairs
    ∧ ∀ child parent,
        (child, parent) ∈ pairs
        ↔ (child, parent) ∈ map (λ row, (CHILD row, PARENT row)) Ex8.df.
Proof.
  apply (C8_forest_round_trip Ex8.df Ex8.rank 3).
  intros row Hrow. unfold Ex8.df, edge_rows in Hrow. simpl in Hrow.
  repeat (apply elem_of_cons in Hrow as [->|Hrow]; [vm_compute; lia|]).
  by apply elem_of_nil in Hrow.
Defined.

(** ** C9: one dictionary per root *)

(** X18, what does hold of the roots: the list has one element per root,
    and the keys of
    every element are the roots, that is the names that are a parent in some
    row and a child in none. *)
Lemma gruptreedf2dict_roots (df : list rec_dict) :
  df ≠ [] →
  let edges := map (λ row, (CHILD row, PARENT row)) df in
  let roots : gset string := list_to_set edges.*2 ∖ list_to_set edges.*1 in
  ∃ trees s,
    gruptreedf2dict df = Trees trees s
    ∧ length trees = size roots
    ∧ ∀ m, m ∈ trees →
        ∀ r, r ∈ PyDict.keys m ↔ r ∈ edges.*2 ∧ r ∉ edges.*1.
Proof.
  intros Hne edges roots. unfold gruptreedf2dict.
  rewrite bool_decide_eq_false_2 by done. fold edges. fold roots.
  eexists _, _. split; [done|]. split.
  - by rewrite length_map.
  - intros m (r0 & -> & _)%list_elem_of_fmap r. unfold PyDict.keys.
    rewrite <-list_fmap_compose.
    rewrite list_elem_of_fmap. split.
    + intros (r' & -> & Hr'%elem_of_elements). simpl.
      apply elem_of_difference in Hr'. by rewrite !elem_of_list_to_set in Hr'.
    + intros [Hp Hc]. exists r. split; [done|].
      apply elem_of_elements, elem_of_difference.
      by rewrite !elem_of_list_to_set.
Qed.

(** C9, at the failing rows (A, R1), (B, R2): there are two roots, and the
    returned list has two elements, but each element is the dictionary of
    both roots, [{R1: {A: {}}, R2: {B: {}}}], not the dictionary of one. *)
Theorem C9_each_mapping_holds_every_root :
  gruptreedf2dict Ex9.df = Trees [Ex9.both_roots; Ex9.both_roots] Ex9.subtrees
  ∧ mapping_tree 2 Ex9.subtrees Ex9.both_roots
    = Some (Node [("R1", Node [("A", Node [])]); ("R2", Node [("B", Node [])])])
  ∧ length Ex9.both_roots = 2%nat.
Proof. split; [by vm_compute|]. split; reflexivity. Qed.

(** * ecl2df.eclfiles: properties *)

(** ** Strings *)

Lemma append_cons c (a b : string) :
  String.append (String c a) b = String c (String.append a b).
Proof. reflexivity. Qed.

Lemma length_append (a b : string) :
  String.length (String.append a b) = (String.length a + String.length b)%nat.
Proof. induction a as [|c a IH]; simpl; [done|]. by rewrite IH. Qed.

Lemma substring_zero_len k (s : string) : String.substring k 0 s = EmptyString.
Proof.
  revert k. induction s as [|c s IH]; intros [|k]; simpl; auto.
Qed.

Lemma substring_app_l (a b : string) :
  String.substring 0 (String.length a) (String.append a b) = a.
Proof.
  induction a as [|c a IH]; simpl; [apply substring_zero_len|]. by rewrite IH.
Qed.

Lemma substring_full (b : string) :
  String.substring 0 (String.length b) b = b.
Proof. induction b as [|c b IH]; simpl; [done|]. by rewrite IH. Qed.

Lemma substring_app_r (a b : string) :
  String.substring (String.length a) (String.length b) (String.append a b) = b.
Proof. induction a as [|c a IH]; simpl; [apply substring_full|done]. Qed.

Lemma substring_split k (s : string) :
  (k ≤ String.length s)%nat →
  s = String.append (String.substring 0 k s)
        (String.substring k (String.length s - k) s).
Proof.
  revert k. induction s as [|c s IH]; intros k Hk.
  - by destruct k.
  - destruct k as [|k].
    + simpl. by rewrite substring_full.
    + simpl. rewrite append_cons. f_equal. apply IH. simpl in Hk. lia.
Qed.

Lemma endswith_app (pre pat : string) :
  PyStr.endswith (String.append pre pat) pat = true.
Proof.
  unfold PyStr.endswith. rewrite length_append.
  replace (String.length pre + String.length pat - String.length pat)%nat
    with (String.length pre) by lia.
  rewrite substring_app_r, String.eqb_refl, andb_true_r.
  apply Nat.leb_le. lia.
Qed.

Lemma endswith_inv (s pat : string) :
  PyStr.endswith s pat = true →
  s = String.append
        (String.substring 0 (String.length s - String.length pat) s) pat.
Proof.
  unfold PyStr.endswith. intros [Hle Heq]%andb_true_iff.
  apply Nat.leb_le in Hle. apply String.eqb_eq in Heq.
  rewrite (substring_split (String.length s - String.length pat) s) at 1 by lia.
  replace (String.length s - (String.length s - String.length pat))%nat
    with (String.length pat) by lia.
  by rewrite Heq.
Qed.

Lemma append_nil_r (a : string) : String.append a EmptyString = a.
Proof. induction a as [|c a IH]; [done|]. by rewrite append_cons, IH. Qed.

Lemma append_assoc (a b c : string) :
  String.append (String.append a b) c = String.append a (String.append b c).
Proof. induction a as [|x a IH]; [done|]. by rewrite !append_cons, IH. Qed.

(** What a replacement at the end does, for a pattern that is not empty. *)
Lemma rreplace_cases (pat sub s : string) :
  pat ≠ EmptyString →
  (PyStr.endswith s pat = false ∧ rreplace pat sub s = s)
  ∨ (∃ pre, s = String.append pre pat
            ∧ rreplace pat sub s = String.append pre sub).
Proof.
  intros Hpat. unfold rreplace.
  destruct (PyStr.endswith s pat) eqn:Hend; [right|by left].
  pose proof (endswith_inv _ _ Hend) as Hs.
  exists (String.substring 0 (String.length s - String.length pat) s).
  split; [done|]. f_equal. unfold PyStr.slice_to.
  assert (String.length pat ≠ 0%nat) as Hlen by (by destruct pat).
  assert (String.length pat ≤ String.length s)%nat as Hle.
  { unfold PyStr.endswith in Hend. apply andb_true_iff in Hend as [Hle _].
    by apply Nat.leb_le in Hle. }
  rewrite (proj2 (Z.ltb_lt _ _)) by lia. f_equal. lia.
Qed.

Lemma append_cancel_r (a b p : string) :
  String.append a p = String.append b p → a = b.
Proof.
  revert b. induction a as [|c a IH]; intros [|c' b] Heq; [done| | |].
  - apply (f_equal String.length) in Heq.
    rewrite !length_append in Heq. simpl in Heq. lia.
  - apply (f_equal String.length) in Heq.
    rewrite !length_append in Heq. simpl in Heq. lia.
  - rewrite !append_cons in Heq. injection Heq as -> Heq. f_equal. by apply IH.
Qed.

Lemma rreplace_app (pat sub pre : string) :
  pat ≠ EmptyString →
  rreplace pat sub (String.append pre pat) = String.append pre sub.
Proof.
  intros Hpat.
  destruct (rreplace_cases pat sub (String.append pre pat) Hpat)
    as [[Hend _]|(pre' & Heq & ->)].
  - by rewrite endswith_app in Hend.
  - f_equal. symmetry. by eapply append_cancel_r.
Qed.

(** X1: when the string ends with a non-empty pattern, that one occurrence
    at the end is replaced and the rest of the string is kept, also when the
    pattern occurs earlier in the string. *)
Theorem rreplace_at_end (pat sub pre : string) :
  pat ≠ EmptyString →
  rreplace pat sub (String.append pre pat) = String.append pre sub.
Proof. apply rreplace_app. Qed.

Lemma rreplace_at_end_witness :
  rreplace ".DATA" "" "RUN.DATA.DATA" = "RUN.DATA".
Proof.
  apply (rreplace_at_end ".DATA" "" "RUN.DATA"). discriminate.
Defined.

(** X2: with the empty pattern the whole string is dropped and the result is
    the substitute alone: every string ends with the empty string, and the
    slice [string[0:-0]] is empty. *)
Theorem rreplace_empty_pattern (sub s : string) :
  rreplace EmptyString sub s = sub.
Proof.
  unfold rreplace.
  assert (PyStr.endswith s EmptyString = true) as ->.
  { rewrite <-(append_nil_r s) at 1. apply endswith_app. }
  assert (PyStr.slice_to (- Z.of_nat (String.length EmptyString)) s
          = EmptyString) as ->; [|done].
  unfold PyStr.slice_to. change (- Z.of_nat (String.length "")) with 0.
  change (0 <? 0) with false. cbv iota.
  replace (Z.to_nat (0 `min` Z.of_nat (String.length s))) with 0%nat by lia.
  apply substring_zero_len.
Qed.

(** X3: the stored base name is the given name without a suffix, and the
    suffix removed is one of "", ".", ".DATA" and "..DATA"; nothing else of
    the name is changed. *)
Theorem EclFiles_init_strips_suffix (eclbase : string) :
  ∃ suffix,
    suffix ∈ [EmptyString; "."; ".DATA"; "..DATA"]
    ∧ eclbase = String.append (EclFiles_init eclbase) suffix.
Proof.
  unfold EclFiles_init.
  destruct (rreplace_cases ".DATA" "" eclbase) as [[_ ->]|(pre & -> & ->)];
    [done| |].
  - destruct (rreplace_cases "." "" eclbase) as [[_ ->]|(pre & -> & ->)];
      [done| |].
    + exists EmptyString. split; [set_solver|]. by rewrite append_nil_r.
    + exists ".". split; [set_solver|]. by rewrite append_nil_r.
  - rewrite append_nil_r.
    destruct (rreplace_cases "." "" pre) as [[_ ->]|(pre' & -> & ->)];
      [done| |].
    + exists ".DATA". split; [set_solver|done].
    + exists "..DATA". split; [set_solver|].
      by rewrite append_nil_r, append_assoc.
Qed.

Lemma append_snoc_inj (a b : string) c d :
  String.append a (String c EmptyString)
  = String.append b (String d EmptyString) → a = b ∧ c = d.
Proof.
  revert b. induction a as [|x a IH]; intros [|y b] Heq.
  - by injection Heq as ->.
  - rewrite append_cons in Heq. injection Heq as _ Heq.
    apply (f_equal String.length) in Heq.
    rewrite length_append in Heq. simpl in Heq. lia.
  - rewrite append_cons in Heq. injection Heq as _ Heq.
    apply (f_equal String.length) in Heq.
    rewrite length_append in Heq. simpl in Heq. lia.
  - rewrite !append_cons in Heq. injection Heq as -> Heq.
    destruct (IH _ Heq) as [-> ->]. done.
Qed.

(** X4: for a name that does not end with a dot, the spellings "X.DATA" and
    "X." give the base name X, and so does "X" itself unless it ends with
    ".DATA"; the restart file is then looked for under "X.UNRST". *)
Theorem EclFiles_init_same_case (base : string) :
  PyStr.endswith base "." = false →
  EclFiles_init (String.append base ".DATA") = base
  ∧ EclFiles_init (String.append base ".") = base
  ∧ (PyStr.endswith base ".DATA" = false → EclFiles_init base = base)
  ∧ get_rstfilename (EclFiles_init (String.append base ".DATA"))
    = String.append base ".UNRST".
Proof.
  intros Hdot.
  assert (rreplace "." "" base = base) as Hbase.
  { unfold rreplace. by rewrite Hdot. }
  assert (EclFiles_init (String.append base ".DATA") = base) as Hdata.
  { unfold EclFiles_init. rewrite rreplace_app by done.
    by rewrite append_nil_r. }
  split; [done|]. split; [|split].
  - unfold EclFiles_init.
    assert (rreplace ".DATA" "" (String.append base ".")
            = String.append base ".") as ->.
    { destruct (rreplace_cases ".DATA" "" (String.append base "."))
        as [[_ ->]|(pre & Heq & _)]; [done|done|].
      exfalso.
      change ".DATA" with (String.append ".DAT" "A") in Heq.
      rewrite <-append_assoc in Heq.
      by apply append_snoc_inj in Heq as [_ ?]. }
    rewrite rreplace_app by done. apply append_nil_r.
  - intros Hnodata. unfold EclFiles_init, rreplace at 2.
    by rewrite Hnodata.
  - by rewrite Hdata.
Qed.

Lemma EclFiles_init_same_case_witness :
  EclFiles_init "NORNE_ATW2013.DATA" = "NORNE_ATW2013"
  ∧ EclFiles_init "NORNE_ATW2013." = "NORNE_ATW2013"
  ∧ get_rstfilename (EclFiles_init "NORNE_ATW2013.DATA")
    = "NORNE_ATW2013.UNRST".
Proof.
  pose proof (EclFiles_init_same_case "NORNE_ATW2013" eq_refl)
    as (H1 & H2 & _ & H4).
  exact (conj H1 (conj H2 H4)).
Defined.

(** ** get_zonemap *)

Lemma lookup_foldl_insert (v : string) (ks : list Z) (m : gmap Z string) k :
  foldl (λ m k, <[k := v]> m) m ks !! k
  = if decide (k ∈ ks) then Some v else m !! k.
Proof.
  revert m. induction ks as [|k0 ks IH]; intros m; cbn [foldl].
  - rewrite decide_False; [done|]. apply not_elem_of_nil.
  - rewrite IH. destruct (decide (k ∈ ks)) as [Hin|Hnin].
    + rewrite decide_True; [done|]. by apply list_elem_of_further.
    + destruct (decide (k = k0)) as [->|Hne].
      * rewrite decide_True by apply list_elem_of_here.
        apply lookup_insert_eq.
      * rewrite decide_False by (by intros [?|?]%elem_of_cons).
        by apply lookup_insert_ne.
Qed.

Section zonemap_facts.
Variable strip : string → string.
Variable shlex_split : string → option (list string).
Variable py_int : string → option Z.

Lemma zone_line_parse zonemap line :
  zone_line strip shlex_split py_int zonemap line
  = (e ← parse_zoneline strip shlex_split py_int line;
     Ok (foldl (λ zonemap k, <[k := e.1]> zonemap) zonemap
           (seqZ e.2.1 (e.2.2 + 1 - e.2.1)))).
Proof.
  unfold zone_line, parse_zoneline.
  destruct (shlex_split line) as [[|layername [|interval [|? ?]]]|]; try done.
  by destruct (zone_interval strip py_int interval).
Qed.

Lemma zone_line_lookup zonemap line e :
  parse_zoneline strip shlex_split py_int line = Ok e →
  ∃ m, zone_line strip shlex_split py_int zonemap line = Ok m
       ∧ ∀ k, m !! k = if decide (e.2.1 ≤ k ≤ e.2.2) then Some e.1
                       else zonemap !! k.
Proof.
  intros Hparse. rewrite zone_line_parse, Hparse. eexists. split; [done|].
  intros k. rewrite lookup_foldl_insert.
  destruct (decide (e.2.1 ≤ k ≤ e.2.2)) as [Hin|Hout].
  - rewrite decide_True; [done|]. apply elem_of_seqZ. lia.
  - rewrite decide_False; [done|]. rewrite elem_of_seqZ. lia.
Qed.

Lemma for_each_zone_line kept entries zonemap :
  Forall2 (λ line e, parse_zoneline strip shlex_split py_int line = Ok e)
    kept entries →
  ∃ m, for_each (zone_line strip shlex_split py_int) kept zonemap = Ok m
       ∧ ∀ k, m !! k = match layer_of entries k with
                       | Some name => Some name
                       | None => zonemap !! k
                       end.
Proof.
  intros Hall. revert zonemap.
  induction Hall as [|line e kept entries Hparse Hall IH]; intros zonemap.
  - by exists zonemap.
  - cbn [for_each].
    destruct (zone_line_lookup zonemap line e Hparse) as (m1 & -> & Hm1).
    destruct (IH m1) as (m & Hm & Hlookup). exists m. split; [done|].
    intros k. rewrite Hlookup, Hm1. unfold layer_of. rewrite filter_cons.
    destruct (decide (e.2.1 ≤ k ≤ e.2.2)) as [Hin|Hout]; [|done].
    rewrite last_cons. by destruct (last _).
Qed.
End zonemap_facts.

(** X5: when every kept line of the zone file reads as a name and an
    interval, the method returns a dictionary in which a layer [k] is bound
    exactly when some interval holds it, and then to the name of the last
    such line: every layer of every interval is present, a later line
    overrides an earlier one, and an interval written backwards adds
    nothing. *)
Theorem get_zonemap_lookup
    (strip : string → string) (shlex_split : string → option (list string))
    (py_int : string → option Z)
    (os_path_isabs : string → bool) (os_path_join : string → string → string)
    (os_path_exists : string → bool) (readlines : string → list string)
    (path filename : string) (entries : list (string * (Z * Z))) :
  filename ≠ EmptyString →
  let fullpath :=
    if os_path_isabs filename then filename else os_path_join path filename in
  os_path_exists fullpath = true →
  Forall2 (λ line e, parse_zoneline strip shlex_split py_int line = Ok e)
    (zonelines strip (readlines fullpath)) entries →
  ∃ zonemap,
    get_zonemap strip shlex_split py_int os_path_isabs os_path_join
      os_path_exists readlines path (Some filename) = ([], Ok zonemap)
    ∧ (∀ k, zonemap !! k = layer_of entries k)
    ∧ (∀ k, is_Some (zonemap !! k)
            ↔ ∃ e, e ∈ entries ∧ e.2.1 ≤ k ≤ e.2.2).
Proof.
  intros Hname fullpath Hexists Hall.
  destruct (for_each_zone_line strip shlex_split py_int _ _ ∅ Hall)
    as (m & Hm & Hlookup).
  assert (∀ k, m !! k = layer_of entries k) as Hlayer.
  { intros k. rewrite Hlookup. destruct (layer_of entries k); [done|].
    apply lookup_empty. }
  exists m. split; [|split; [done|]].
  - subst fullpath. destruct filename as [|c filename]; [done|].
    cbv beta zeta iota delta [get_zonemap default from_option id].
    rewrite Hexists. unfold zonemap_of_lines. by rewrite Hm.
  - intros k. rewrite Hlayer. unfold layer_of.
    rewrite fmap_is_Some, last_is_Some. split.
    + intros Hne. destruct (filter _ entries) as [|e l] eqn:Hf; [done|].
      assert (e ∈ filter (λ e, e.2.1 ≤ k ≤ e.2.2) entries) as He.
      { rewrite Hf. apply list_elem_of_here. }
      apply list_elem_of_filter in He as [? ?]. eauto.
    + intros (e & He & Hk) Hnil.
      assert (e ∈ filter (λ e, e.2.1 ≤ k ≤ e.2.2) entries) as Hin.
      { by apply list_elem_of_filter. }
      rewrite Hnil in Hin. by apply elem_of_nil in Hin.
Qed.

(** X6: a line that is blank after stripping, or that starts with "--" or
    "#", has no effect on the result, wherever it stands in the file. *)
Theorem zonemap_comment_ignored
    (strip : string → string) (shlex_split : string → option (list string))
    (py_int : string → option Z) (before after : list string) (line : string) :
  strip line = EmptyString
  ∨ PyStr.startswith (strip line) "--" = true
  ∨ PyStr.startswith (strip line) "#" = true →
  zonemap_of_lines strip shlex_split py_int (before ++ line :: after)
  = zonemap_of_lines strip shlex_split py_int (before ++ after).
Proof.
  intros Hline. unfold zonemap_of_lines. f_equal. unfold zonelines.
  rewrite !map_app, !filter_app. f_equal. cbn [map].
  rewrite (filter_cons _ (strip line)).
  destruct (decide (PyStr.startswith (strip line) "--" = false)) as [H1|H1];
    [|done].
  rewrite (filter_cons _ (strip line)).
  destruct (decide (PyStr.startswith (strip line) "#" = false)) as [H2|H2];
    [|done].
  rewrite (filter_cons _ (strip line)).
  destruct Hline as [Hempty|[Hc|Hc]]; [|congruence..].
  rewrite decide_False; [done|]. rewrite Hempty. simpl. lia.
Qed.

(** X7: a kept line that does not read as a name and an interval makes the
    call raise [ValueError]; the layers of the lines before it are not
    returned. *)
Theorem zonemap_malformed_line_raises
    (strip : string → string) (shlex_split : string → option (list string))
    (py_int : string → option Z) (lines : list string) :
  Exists (λ line, ∀ e, parse_zoneline strip shlex_split py_int line ≠ Ok e)
    (zonelines strip lines) →
  zonemap_of_lines strip shlex_split py_int lines = Raise ValueError.
Proof.
  unfold zonemap_of_lines. generalize (∅ : gmap Z string).
  generalize (zonelines strip lines). intros kept zonemap Hex. revert zonemap.
  assert (∀ line zonemap,
            (∃ m, zone_line strip shlex_split py_int zonemap line = Ok m
                  ∧ ∃ e, parse_zoneline strip shlex_split py_int line = Ok e)
            ∨ (zone_line strip shlex_split py_int zonemap line
               = Raise ValueError
               ∧ ∀ e, parse_zoneline strip shlex_split py_int line ≠ Ok e))
    as Hcases.
  { intros line zonemap. rewrite zone_line_parse.
    unfold parse_zoneline, zone_interval.
    destruct (shlex_split line) as [[|layername [|interval [|? ?]]]|];
      try (by right).
    destruct (PyStr.split _ _) as [|k_0 [|k_1 [|? ?]]]; try (by right).
    destruct (py_int k_0), (py_int k_1); try (by right).
    left. eexists. split; [done|]. by eexists. }
  induction Hex as [line kept Hbad|line kept Hex IH]; intros zonemap;
    cbn [for_each].
  - destruct (Hcases line zonemap) as [(m & _ & e & He)|[-> _]]; [|done].
    by destruct (Hbad e).
  - destruct (Hcases line zonemap) as [(m & -> & _)|[-> _]]; [|done].
    apply IH.
Qed.

Lemma get_zonemap_lookup_witness :
  ∃ zonemap,
    get_zonemap (λ s, s) ExZone.words ExZone.int ExFs.isabs ExFs.join
      ExFs.exists_ ExFs.readlines "/case" (Some "zones.lyr")
    = ([], Ok zonemap)
    ∧ (∀ k, zonemap !! k = layer_of ExZone.entries k)
    ∧ (∀ k, is_Some (zonemap !! k)
            ↔ ∃ e, e ∈ ExZone.entries ∧ e.2.1 ≤ k ≤ e.2.2).
Proof.
  apply (get_zonemap_lookup (λ s, s) ExZone.words ExZone.int ExFs.isabs
           ExFs.join ExFs.exists_ ExFs.readlines "/case" "zones.lyr"
           ExZone.entries).
  - discriminate.
  - reflexivity.
  - repeat constructor.
Defined.

Lemma zonemap_comment_ignored_witness :
  zonemap_of_lines (λ s, s) ExZone.words ExZone.int
    (["Upper 1-4"] ++ "-- zones" :: ["Lower 5-10"])
  = zonemap_of_lines (λ s, s) ExZone.words ExZone.int
      (["Upper 1-4"] ++ ["Lower 5-10"]).
Proof.
  apply (zonemap_comment_ignored (λ s, s) ExZone.words ExZone.int
           ["Upper 1-4"] ["Lower 5-10"] "-- zones").
  right. left. reflexivity.
Defined.

Lemma zonemap_malformed_line_raises_witness :
  zonemap_of_lines (λ s, s) ExZone.words ExZone.int ["Upper 1-4"; "Lower"]
  = Raise ValueError.
Proof.
  apply (zonemap_malformed_line_raises (λ s, s) ExZone.words ExZone.int
           ["Upper 1-4"; "Lower"]).
  apply Exists_cons_tl, Exists_cons_hd. intros e. discriminate.
Defined.

(** * ecl2df.gruptree2df: further properties of deck2df *)

Lemma elem_of_foldl_set (d : list ((string * string) * origin))
    (ks : list (string * string)) (v : origin) e o :
  (e, o) ∈ foldl (λ d k, PyDict.set k v d) d ks →
  (e ∈ ks ∧ o = v) ∨ (e, o) ∈ d.
Proof.
  revert d. induction ks as [|k ks IH]; intros d; cbn [foldl]; [by right|].
  intros [[Hin ->]|Hin]%IH.
  - left. split; [by apply list_elem_of_further|done].
  - apply elem_of_set in Hin as [[= -> ->]|Hin]; [|by right].
    left. split; [apply list_elem_of_here|done].
Qed.

Lemma dump_row_cases st r :
  r ∈ gruptreerecords (dump st) →
  r ∈ gruptreerecords st
  ∨ ∃ item, item ∈ currentedges st
            ∧ (CHILD r, PARENT r) = item.1 ∧ TYPE r = item.2.
Proof.
  unfold dump. destruct (negb _ && pending st); [|by left].
  destruct (date st); cbn; intros [Hr|Hr]%elem_of_app; try (by left);
    right; unfold snapshot in Hr;
    apply list_elem_of_fmap in Hr as ([[c p] o] & -> & Hitem);
    by exists ((c, p), o).
Qed.

Section provenance.
Variable parse_ecl_month : string → option Z.
Variable welspecs : bool.
Variable P : (string * string) * origin → Prop.

Lemma step_edges_satisfy st kw st' :
  (∀ e, e ∈ recorded welspecs kw → P (e, origin_of kw)) →
  step parse_ecl_month welspecs st kw = Ok st' →
  edges_satisfy P st → edges_satisfy P st'.
Proof.
  intros Hkw Hstep [Hedges Hrows]. split.
  - intros [e o]. rewrite (step_edges _ _ _ _ _ Hstep).
    intros [[Hin ->]|Hin]%elem_of_foldl_set; [by apply Hkw|by apply Hedges].
  - intros r Hr. destruct (date_advancing kw) eqn:Hd.
    + rewrite step_date_advancing in Hstep by done.
      apply advance_same in Hstep as (Hrec & _). rewrite Hrec in Hr.
      apply dump_row_cases in Hr as [Hr|([e o] & Hitem & He & Ho)].
      * by apply Hrows.
      * simpl in He, Ho. rewrite He, Ho. by apply Hedges.
    + rewrite step_other in Hstep by done.
      apply record_kw_records in Hstep as [Hrec _]. rewrite Hrec in Hr.
      by apply Hrows.
Qed.

Lemma scan_edges_satisfy deck st st' :
  (∀ kw e, kw ∈ deck → e ∈ recorded welspecs kw → P (e, origin_of kw)) →
  scan parse_ecl_month welspecs deck st = Ok st' →
  edges_satisfy P st → edges_satisfy P st'.
Proof.
  unfold scan. revert st. induction deck as [|kw deck IH]; intros st Hdeck.
  - by intros [= <-].
  - cbn [for_each]. intros (st1 & Hstep & Hrest)%bind_Ok Hinv.
    apply (IH st1); [|done|].
    + intros kw' e Hkw'. apply Hdeck. by apply list_elem_of_further.
    + eapply step_edges_satisfy; [|done..].
      intros e. apply Hdeck. apply list_elem_of_here.
Qed.

Lemma deck2df_rows_satisfy deck startdate rows :
  (∀ kw e, kw ∈ deck → e ∈ recorded welspecs kw → P (e, origin_of kw)) →
  deck2df parse_ecl_month deck startdate welspecs = Ok rows →
  ∀ r, r ∈ rows → P ((CHILD r, PARENT r), TYPE r).
Proof.
  intros Hdeck (st & Hscan & [= <-])%bind_Ok r Hr.
  assert (edges_satisfy P st) as [Hedges Hrows].
  { eapply scan_edges_satisfy; [done..|].
    split; [by intros item ?%elem_of_nil|by intros r' ?%elem_of_nil]. }
  unfold final_records in Hr. destruct (_ || _); [|by apply Hrows].
  apply elem_of_app in Hr as [Hr|Hr]; [by apply Hrows|].
  unfold snapshot in Hr.
  apply list_elem_of_fmap in Hr as ([[c p] o] & -> & Hitem).
  by apply Hedges in Hitem.
Qed.
End provenance.

(** X8: every row of the returned table carries a (child, parent) pair that
    some GRUPTREE keyword of the deck, or some WELSPECS keyword when
    [welspecs] is set, records, and its TYPE is the name of such a keyword:
    no edge is invented, and none is taken from a keyword of another kind. *)
Theorem deck2df_rows_recorded
    (parse_ecl_month : string → option Z) (welspecs : bool)
    (deck : list keyword) (startdate : option Z) (rows : list rec_dict) :
  deck2df parse_ecl_month deck startdate welspecs = Ok rows →
  ∀ r, r ∈ rows →
    ∃ kw, kw ∈ deck
          ∧ (CHILD r, PARENT r) ∈ recorded welspecs kw
          ∧ TYPE r = origin_of kw.
Proof.
  intros Hdf r Hr.
  apply (deck2df_rows_satisfy parse_ecl_month welspecs
           (λ item, ∃ kw, kw ∈ deck ∧ item.1 ∈ recorded welspecs kw
                          ∧ item.2 = origin_of kw)
           deck startdate rows); [|done..].
  intros kw e Hkw He. by exists kw.
Qed.

Lemma deck2df_rows_recorded_witness :
  Forall (λ r, ∃ kw, kw ∈ Ex7.deck
                     ∧ (CHILD r, PARENT r) ∈ recorded true kw
                     ∧ TYPE r = origin_of kw) Ex7.rows.
Proof.
  apply Forall_forall.
  apply (deck2df_rows_recorded eclmonth2num true Ex7.deck None Ex7.rows).
  reflexivity.
Defined.

(** X9: a deck without GRUPTREE keywords, and without WELSPECS keywords
    unless [welspecs] is off, gives an empty table whenever the call returns
    one; GRUPNET and date keywords alone never produce a row. *)
Theorem deck2df_no_edges_no_rows
    (parse_ecl_month : string → option Z) (welspecs : bool)
    (deck : list keyword) (startdate : option Z) (rows : list rec_dict) :
  (∀ kw, kw ∈ deck → recorded welspecs kw = []) →
  deck2df parse_ecl_month deck startdate welspecs = Ok rows →
  rows = [].
Proof.
  intros Hnone Hdf. destruct rows as [|r rows]; [done|]. exfalso.
  apply (deck2df_rows_satisfy parse_ecl_month welspecs (λ _, False)
           deck startdate (r :: rows)) with r; [|done|apply list_elem_of_here].
  intros kw e Hkw He. rewrite (Hnone kw Hkw) in He. by apply elem_of_nil in He.
Qed.

Lemma deck2df_no_edges_no_rows_witness :
  deck2df eclmonth2num
    [START [Ex.jan1]; GRUPNET [Ex.grp1_alq5]; WELSPECS [("W1", "GRP1")];
     DATES [Ex.feb1]; TSTEP [[10]]] None false = Ok []
  ∧ ([] : list rec_dict) = [].
Proof.
  split; [reflexivity|].
  apply (deck2df_no_edges_no_rows eclmonth2num false
           [START [Ex.jan1]; GRUPNET [Ex.grp1_alq5]; WELSPECS [("W1", "GRP1")];
            DATES [Ex.feb1]; TSTEP [[10]]] None []).
  - intros kw Hkw.
    repeat (apply elem_of_cons in Hkw as [->|Hkw]; [reflexivity|]).
    by apply elem_of_nil in Hkw.
  - reflexivity.
Defined.

(** X10: keywords other than the six the loop looks at, and WELSPECS
    keywords when [welspecs] is off, can be removed from the deck without
    changing the result, be it a table, the critical log or an exception. *)
Theorem deck2df_ignored_keywords
    (parse_ecl_month : string → option Z) (welspecs : bool)
    (deck : list keyword) (startdate : option Z) :
  deck2df parse_ecl_month
    (filter (λ kw, ignored welspecs kw = false) deck) startdate welspecs
  = deck2df parse_ecl_month deck startdate welspecs.
Proof.
  unfold deck2df, scan. f_equal. generalize (init startdate).
  induction deck as [|kw deck IH]; intros st; [done|].
  rewrite filter_cons. destruct (decide (ignored welspecs kw = false)) as [H|H].
  - cbn [for_each]. destruct (step _ _ st kw); simpl; [apply IH|done..].
  - cbn [for_each]. rewrite IH.
    assert (step parse_ecl_month welspecs st kw = Ok st) as ->; [|done].
    destruct kw as [| | | |recs| |name]; try done.
    by destruct welspecs.
Qed.

(** The date passed in is forgotten by the first DATES or START record. *)
Lemma record_kw_set_date welspecs d st kw :
  record_kw welspecs (set_date d st) kw
  = (st' ← record_kw welspecs st kw; Ok (set_date d st')).
Proof.
  destruct kw as [recs|recs|recs|recs|recs|recs|name]; try done.
  - cbn [record_kw]. by rewrite !foldl_set_edge.
  - cbn [record_kw]. destruct welspecs; [|done]. by rewrite !foldl_set_edge.
  - cbn [record_kw]. cbn [grupnetrecords set_date].
    by destruct (Frame.of_records _).
Qed.

Section startdate.
Variable parse_ecl_month : string → option Z.
Variable welspecs : bool.

Lemma date_rec_set_date d st rec :
  date_rec parse_ecl_month (set_date d st) rec
  = date_rec parse_ecl_month st rec.
Proof.
  unfold date_rec. destruct (parse_ecl_month _); [|done].
  by destruct (PyDate.date _ _ _).
Qed.

Lemma for_each_date_rec_set_date d st recs :
  recs ≠ [] →
  for_each (date_rec parse_ecl_month) recs (set_date d st)
  = for_each (date_rec parse_ecl_month) recs st.
Proof.
  destruct recs as [|rec recs]; [done|]. intros _. cbn [for_each].
  by rewrite date_rec_set_date.
Qed.

Lemma scan_prefix_set_date d pre st st' :
  Forall (λ kw, date_advancing kw = false ∧ recorded welspecs kw = []) pre →
  currentedges st = [] →
  scan parse_ecl_month welspecs pre st = Ok st' →
  currentedges st' = []
  ∧ scan parse_ecl_month welspecs pre (set_date d st) = Ok (set_date d st').
Proof.
  unfold scan. intros Hpre. revert st.
  induction Hpre as [|kw pre [Hnodate Hnorec] Hpre IH]; intros st Hempty.
  - by intros [= <-].
  - cbn [for_each]. intros (st1 & Hstep & Hrest)%bind_Ok.
    assert (currentedges st1 = []) as Hempty1.
    { rewrite (step_edges _ _ _ _ _ Hstep), Hnorec. done. }
    destruct (IH st1 Hempty1 Hrest) as [Hend Hscan]. split; [done|].
    rewrite step_other in Hstep |- * by done.
    rewrite record_kw_set_date, Hstep. done.
Qed.

Lemma scan_prefix_aborts d pre st :
  Forall (λ kw, date_advancing kw = false ∧ recorded welspecs kw = []) pre →
  (∀ st', scan parse_ecl_month welspecs pre st ≠ Ok st') →
  scan parse_ecl_month welspecs pre (set_date d st)
  = scan parse_ecl_month welspecs pre st.
Proof.
  unfold scan. intros Hpre. revert st.
  induction Hpre as [|kw pre [Hnodate Hnorec] Hpre IH]; intros st Habort.
  - by destruct (Habort st).
  - cbn [for_each] in *. rewrite !step_other in * by done.
    rewrite record_kw_set_date.
    destruct (record_kw welspecs st kw) as [st1| |]; simpl in *; [|done..].
    by apply IH.
Qed.
End startdate.

(** X11: when the first date-advancing keyword of the deck is a DATES or
    START keyword with at least one record, and no edge is recorded before
    it, the [startdate] argument has no influence on the result. *)
Theorem deck2df_startdate_irrelevant
    (parse_ecl_month : string → option Z) (welspecs : bool)
    (pre rest : list keyword) (kw : keyword) (recs : list daterec)
    (startdate startdate' : option Z) :
  Forall (λ kw, date_advancing kw = false ∧ recorded welspecs kw = []) pre →
  kw = START recs ∨ kw = DATES recs →
  recs ≠ [] →
  deck2df parse_ecl_month (pre ++ kw :: rest) startdate welspecs
  = deck2df parse_ecl_month (pre ++ kw :: rest) startdate' welspecs.
Proof.
  intros Hpre Hkw Hrecs.
  assert (∀ d, deck2df parse_ecl_month (pre ++ kw :: rest) d welspecs
               = deck2df parse_ecl_month (pre ++ kw :: rest) None welspecs)
    as Hnone; [|by rewrite (Hnone startdate), (Hnone startdate')].
  intros d. unfold deck2df, scan. f_equal. rewrite !for_each_app.
  change (init d) with (set_date d (init None)).
  destruct (for_each (step parse_ecl_month welspecs) pre (init None))
    as [st| |] eqn:Hscan.
  - destruct (scan_prefix_set_date parse_ecl_month welspecs d pre
                (init None) st Hpre eq_refl Hscan) as [Hempty Hscan'].
    unfold scan in Hscan'. rewrite Hscan'. cbn [mbind outcome_bind for_each].
    assert (step parse_ecl_month welspecs (set_date d st) kw
            = step parse_ecl_month welspecs st kw) as ->; [|done].
    assert (date_advancing kw = true) as Hadv by (by destruct Hkw as [->| ->]).
    rewrite !step_date_advancing by done.
    rewrite !dump_idle by (by left).
    destruct Hkw as [->| ->]; cbn [advance];
      by apply for_each_date_rec_set_date.
  - pose proof (scan_prefix_aborts parse_ecl_month welspecs d pre (init None)
                  Hpre) as Habort.
    unfold scan in Habort. rewrite Habort by congruence. by rewrite Hscan.
  - pose proof (scan_prefix_aborts parse_ecl_month welspecs d pre (init None)
                  Hpre) as Habort.
    unfold scan in Habort. rewrite Habort by congruence. by rewrite Hscan.
Qed.

Lemma deck2df_startdate_irrelevant_witness :
  deck2df eclmonth2num
    ([OTHER "RUNSPEC"; OTHER "DIMENS"] ++ START [Ex.jan1]
       :: [GRUPTREE [("W1", "GRP1")]; TSTEP [[31]]]) (Some 693596) true
  = deck2df eclmonth2num
      ([OTHER "RUNSPEC"; OTHER "DIMENS"] ++ START [Ex.jan1]
         :: [GRUPTREE [("W1", "GRP1")]; TSTEP [[31]]]) None true.
Proof.
  apply (deck2df_startdate_irrelevant eclmonth2num true
           [OTHER "RUNSPEC"; OTHER "DIMENS"]
           [GRUPTREE [("W1", "GRP1")]; TSTEP [[31]]]
           (START [Ex.jan1]) [Ex.jan1] (Some 693596) None).
  - repeat constructor.
  - by left.
  - discriminate.
Defined.

(** ** The GRUPNET table *)

Lemma name_of_None (r : list (string * value)) :
  Frame.name_of r = None ↔ "NAME" ∉ PyDict.keys r.
Proof. unfold Frame.name_of. by rewrite eq_None_not_Some, get_is_Some. Qed.

(** X12: a GRUPNET keyword raises [KeyError] exactly when no record read
    from GRUPNET keywords so far, this one included, sets NAME; this is the
    case for a GRUPNET keyword without records that comes before any
    other.  In every other case the keyword is processed. *)
Theorem grupnet_without_name_raises
    (parse_ecl_month : string → option Z) (welspecs : bool)
    (st : state) (recs : list (list (string * value))) :
  let records := grupnetrecords st ++ map grupnet_data recs in
  (step parse_ecl_month welspecs st (GRUPNET recs) = Raise KeyError
   ↔ Forall (λ r, Frame.name_of r = None) records)
  ∧ (returned_or_keyerror (step parse_ecl_month welspecs st (GRUPNET recs))).
Proof.
  intros records. rewrite step_other by done. cbn [record_kw]. fold records.
  unfold Frame.of_records.
  destruct (decide ("NAME" ∈ Frame.columns_of records)) as [Hin|Hnin]; simpl.
  - split; [|by left; eexists]. split; [done|]. intros Hall. exfalso.
    apply elem_of_columns_of in Hin as (r & Hr & Hname).
    rewrite Forall_forall in Hall. apply Hall, name_of_None in Hr. done.
  - split; [|by right]. split; [|done]. intros _.
    apply Forall_forall. intros r Hr. apply name_of_None. intros Hname.
    apply Hnin, elem_of_columns_of. eauto.
Qed.

Lemma drop_duplicates_last_names rs k :
  k ∈ map Frame.name_of (Frame.drop_duplicates_last rs) →
  k ∈ map Frame.name_of rs.
Proof.
  induction rs as [|r rs IH]; [done|].
  cbn [Frame.drop_duplicates_last]. destruct (decide _).
  - intros Hk. apply list_elem_of_further. by apply IH.
  - cbn [map]. intros [->|Hk]%elem_of_cons; [apply list_elem_of_here|].
    apply list_elem_of_further. by apply IH.
Qed.

Lemma drop_duplicates_last_NoDup rs :
  NoDup (map Frame.name_of (Frame.drop_duplicates_last rs)).
Proof.
  induction rs as [|r rs IH]; [constructor|].
  cbn [Frame.drop_duplicates_last].
  destruct (decide (Frame.name_of r ∈ map Frame.name_of rs)) as [Hin|Hnin];
    [done|].
  cbn [map]. constructor; [|done].
  intros Hdup. by apply Hnin, drop_duplicates_last_names.
Qed.

(** X13: the frame built from the GRUPNET records has no index value
    twice, so a lookup by name finds at most one row. *)
Theorem of_records_index_unique
    (records : list (list (string * value))) (df : Frame.t) :
  Frame.of_records records = Ok df →
  NoDup (Frame.rows df).*1.
Proof.
  unfold Frame.of_records. destruct (decide _); [|done]. intros [= <-].
  cbn [Frame.rows].
  assert ((map (λ r, (Frame.name_of r, r))
             (Frame.drop_duplicates_last records)).*1
          = map Frame.name_of (Frame.drop_duplicates_last records)) as ->.
  { induction (Frame.drop_duplicates_last records) as [|r l IH]; [done|].
    cbn [map fmap list_fmap]. f_equal. apply IH. }
  apply drop_duplicates_last_NoDup.
Qed.

Lemma of_records_index_unique_witness :
  NoDup (Frame.rows
           (Frame.mk ["ALQ"; "TERMINAL_PRESSURE"]
              [(Some (VStr "GRP2"), Ex.grp2_plain);
               (Some (VStr "GRP1"), Ex.grp1_plain)])).*1.
Proof.
  apply (of_records_index_unique
           [Ex.grp1_alq5; Ex.grp2_plain; Ex.grp1_plain]).
  reflexivity.
Defined.

Lemma gruptreedf2dict_roots_witness :
  ∃ trees s,
    gruptreedf2dict Ex9.df = Trees trees s
    ∧ length trees
      = size (list_to_set (map (λ row, (CHILD row, PARENT row)) Ex9.df).*2
              ∖ list_to_set (map (λ row, (CHILD row, PARENT row)) Ex9.df).*1
              : gset string)
    ∧ ∀ m, m ∈ trees →
        ∀ r, r ∈ PyDict.keys m
             ↔ r ∈ (map (λ row, (CHILD row, PARENT row)) Ex9.df).*2
               ∧ r ∉ (map (λ row, (CHILD row, PARENT row)) Ex9.df).*1.
Proof.
  apply (gruptreedf2dict_roots Ex9.df). discriminate.
Defined.

(** ** Decks advanced by TSTEP only *)

Lemma opt_leb_trans a b c :
  opt_leb a b = true → opt_leb b c = true → opt_leb a c = true.
Proof.
  destruct a as [x|], b as [y|], c as [z|]; simpl; try done.
  intros ?%Z.leb_le ?%Z.leb_le. apply Z.leb_le. lia.
Qed.

Lemma opt_leb_refl a : opt_leb a a = true.
Proof. destruct a; simpl; [apply Z.leb_refl|done]. Qed.

Lemma tstep_rec_forward st steplist st' :
  tstep_rec st steplist = Ok st' → opt_leb (date st) (date st') = true.
Proof.
  unfold tstep_rec. destruct (_ <=? 0) eqn:Hdays; [done|].
  destruct (date st) as [d|]; [|done].
  intros (d' & Hadd & [= <-])%bind_Ok. simpl.
  unfold PyDate.add_days in Hadd. destruct (_ && _); [|done].
  injection Hadd as <-. apply Z.leb_le. apply Z.leb_gt in Hdays. lia.
Qed.

Section tstep_only.
Variable parse_ecl_month : string → option Z.
Variable welspecs : bool.

Lemma clock_never_back_tstep_only deck st :
  Forall (λ kw, sets_date kw = false) deck →
  clock_never_back parse_ecl_month welspecs deck st = true.
Proof.
  intros Hdeck. revert st.
  induction Hdeck as [|kw deck Hkw Hdeck IH]; intros st; [done|].
  cbn [clock_never_back].
  destruct (step parse_ecl_month welspecs st kw) as [st1| |] eqn:Hstep;
    [|done..].
  rewrite IH, andb_true_r.
  destruct (date_advancing kw) eqn:Hadv; [|done].
  rewrite step_date_advancing in Hstep by done.
  destruct kw as [| |recs| | | |]; try done. cbn [advance] in Hstep.
  revert Hstep.
  apply (for_each_rel (λ s s', opt_leb (date s) (date s') = true)).
  - intros s. apply opt_leb_refl.
  - intros s1 s2 s3. apply opt_leb_trans.
  - intros s x s'. apply tstep_rec_forward.
Qed.
End tstep_only.

(** X14: in a deck without DATES and START keywords, where time moves by
    TSTEP alone, the DATE values of the returned rows are non-decreasing in
    emission order. *)
Theorem deck2df_tstep_only_nondecreasing
    (parse_ecl_month : string → option Z) (welspecs : bool)
    (startdate : option Z) (deck : list keyword) (rows : list rec_dict) :
  Forall (λ kw, sets_date kw = false) deck →
  deck2df parse_ecl_month deck startdate welspecs = Ok rows →
  nondecreasing rows.
Proof.
  intros Hdeck (st & Hscan & [= <-])%bind_Ok.
  apply final_records_nondecreasing.
  eapply scan_rows_behind_clock; [|done|].
  - by apply clock_never_back_tstep_only.
  - split; [by intros r ?%elem_of_nil|constructor].
Qed.

Lemma deck2df_tstep_only_nondecreasing_witness :
  deck2df eclmonth2num
    [GRUPTREE [("W1", "GRP1")]; TSTEP [[10]]; WELSPECS [("W2", "GRP1")];
     TSTEP [[1; 2]; [5]]; GRUPTREE [("GRP1", "FIELD")]] (Some 737425) true
  = Ok Ex14.rows
  ∧ nondecreasing Ex14.rows.
Proof.
  split; [reflexivity|].
  apply (deck2df_tstep_only_nondecreasing eclmonth2num true (Some 737425)
           [GRUPTREE [("W1", "GRP1")]; TSTEP [[10]]; WELSPECS [("W2", "GRP1")];
            TSTEP [[1; 2]; [5]]; GRUPTREE [("GRP1", "FIELD")]] Ex14.rows).
  - repeat constructor.
  - reflexivity.
Defined.

(** * dict2treelib: properties *)

(** Induction on nested dictionaries. *)
Lemma tree_nested_ind (P : tree → Prop) :
  (∀ kids, Forall (λ kv, P kv.2) kids → P (Node kids)) → ∀ d, P d.
Proof.
  intros Hnode. fix IH 1. intros [kids]. apply Hnode.
  induction kids as [|kv kids IHkids]; constructor; [apply IH|apply IHkids].
Qed.

Section dict_order.
Context {K V : Type} `{EqDecision K}.
Implicit Types (d : list (K * V)) (k : K) (v : V).

Lemma set_fresh d k v :
  k ∉ PyDict.keys d → PyDict.set k v d = d ++ [(k, v)].
Proof.
  unfold PyDict.keys. induction d as [|[k0 v0] d IH]; [done|].
  rewrite fmap_cons. intros [Hne Hnin]%not_elem_of_cons.
  cbn [PyDict.set]. rewrite decide_False by done. by rewrite IH.
Qed.

Lemma get_middle d1 d2 k v :
  k ∉ PyDict.keys d1 → PyDict.get k (d1 ++ (k, v) :: d2) = Some v.
Proof.
  unfold PyDict.keys. induction d1 as [|[k0 v0] d1 IH].
  - intros _. cbn. by rewrite decide_True.
  - rewrite fmap_cons. intros [Hne Hnin]%not_elem_of_cons.
    cbn. rewrite decide_False by done. by apply IH.
Qed.

Lemma set_middle d1 d2 k v v' :
  k ∉ PyDict.keys d1 →
  PyDict.set k v' (d1 ++ (k, v) :: d2) = d1 ++ (k, v') :: d2.
Proof.
  unfold PyDict.keys. induction d1 as [|[k0 v0] d1 IH].
  - intros _. cbn. by rewrite decide_True.
  - rewrite fmap_cons. intros [Hne Hnin]%not_elem_of_cons.
    cbn. rewrite decide_False by done. by rewrite IH.
Qed.

(** [dict.update] with keys that are new. *)
Lemma update_fresh d new :
  NoDup (PyDict.keys new) →
  (∀ k, k ∈ PyDict.keys new → k ∉ PyDict.keys d) →
  foldl (λ d kv, PyDict.set kv.1 kv.2 d) d new = d ++ new.
Proof.
  unfold PyDict.keys. revert d.
  induction new as [|[k v] new IH]; intros d Hnodup Hfresh.
  - by rewrite app_nil_r.
  - rewrite fmap_cons in Hnodup, Hfresh. apply NoDup_cons in Hnodup as [Hk Hnodup].
    cbn [foldl fst snd]. rewrite set_fresh.
    + rewrite IH; [by rewrite <-app_assoc|done|].
      intros k' Hk'. rewrite fmap_app, elem_of_app. intros [Hd|Hd].
      * by apply (Hfresh k'); [apply list_elem_of_further|].
      * apply list_elem_of_singleton in Hd. simpl in Hd. by subst.
    + apply Hfresh, list_elem_of_here.
Qed.
End dict_order.

Lemma alter_node_middle f d1 d2 nid n :
  nid ∉ PyDict.keys d1 →
  Treelib.alter_node f nid (d1 ++ (nid, n) :: d2) = d1 ++ (nid, f n) :: d2.
Proof.
  intros Hfresh. unfold Treelib.alter_node.
  by rewrite get_middle, set_middle.
Qed.

Lemma alter_node_head f nid n d :
  Treelib.alter_node f nid ((nid, n) :: d) = (nid, f n) :: d.
Proof. apply (alter_node_middle f [] d nid n), not_elem_of_nil. Qed.

Lemma keys_expected_nodes parent name d :
  PyDict.keys (expected_nodes parent name d) = name :: names d.
Proof.
  unfold PyDict.keys. revert parent name.
  induction d as [kids IH] using tree_nested_ind.
  intros parent name. cbn [expected_nodes names].
  rewrite fmap_cons. f_equal. cbn [fst].
  induction IH as [|[c sub] kids Hsub _ IHkids]; [done|].
  cbn [flat_map]. rewrite fmap_app. simpl in Hsub.
  by rewrite Hsub, IHkids.
Qed.

Lemma expected_nodes_parent parent name d :
  expected_nodes parent name d
  = Treelib.alter_node
      (λ n, Treelib.mknode (Treelib.tag n) parent (Treelib.fpointer n))
      name (expected_nodes None name d).
Proof.
  destruct d as [kids]. cbn [expected_nodes].
  unfold Treelib.alter_node. cbn [PyDict.get].
  rewrite decide_True by done. cbn [PyDict.set].
  by rewrite decide_True.
Qed.

(** The tree after the children [done] have been pasted under [name]. *)
Lemma names_app a b :
  names (Node (a ++ b)) = names (Node a) ++ names (Node b).
Proof. cbn [names]. apply flat_map_app. Qed.

Lemma names_cons c sub rest :
  names (Node ((c, sub) :: rest)) = (c :: names sub) ++ names (Node rest).
Proof. done. Qed.

Lemma keys_pasted name done :
  PyDict.keys (Treelib.nodes (pasted name done)) = name :: names (Node done).
Proof. apply keys_expected_nodes. Qed.

Lemma paste_clash name done c sub :
  (∃ k, k ∈ c :: names sub ∧ k ∈ name :: names (Node done)) →
  Treelib.paste name (Treelib.mk (Some c) (expected_nodes None c sub))
    (pasted name done)
  = Treelib.Raised Treelib.ValueError.
Proof.
  intros (k & Hnew & Hold). unfold Treelib.paste. cbn [Treelib.root].
  unfold Treelib.contains. rewrite keys_pasted.
  rewrite bool_decide_eq_true_2 by apply list_elem_of_here. cbn [negb].
  cbn [Treelib.nodes]. rewrite keys_expected_nodes.
  rewrite decide_True; [done|]. apply Exists_exists. eauto.
Qed.

Lemma paste_fresh name done c sub :
  (∀ k, k ∈ c :: names sub → k ∉ name :: names (Node done)) →
  NoDup (c :: names sub) →
  Treelib.paste name (Treelib.mk (Some c) (expected_nodes None c sub))
    (pasted name done)
  = Treelib.Done (pasted name (done ++ [(c, sub)])).
Proof.
  intros Hfresh Hnodup. unfold Treelib.paste. cbn [Treelib.root].
  unfold Treelib.contains. rewrite keys_pasted.
  rewrite bool_decide_eq_true_2 by apply list_elem_of_here. cbn [negb].
  cbn [Treelib.nodes]. rewrite keys_expected_nodes.
  rewrite decide_False.
  2:{ intros (k & Hnew & Hold)%Exists_exists. by apply (Hfresh k). }
  f_equal. unfold pasted. f_equal.
  rewrite update_fresh.
  2:{ by rewrite keys_expected_nodes. }
  2:{ intros k. cbn [Treelib.nodes]. rewrite !keys_expected_nodes.
      apply Hfresh. }
  cbn [Treelib.nodes]. destruct sub as [kids].
  pose proof (keys_expected_nodes None name (Node done)) as HF.
  cbn [expected_nodes] in *. unfold PyDict.keys in HF.
  rewrite fmap_cons in HF. injection HF as HF.
  rewrite <-app_comm_cons, alter_node_head.
  cbn [Treelib.tag Treelib.bpointer Treelib.fpointer].
  rewrite app_comm_cons, alter_node_middle.
  2:{ unfold PyDict.keys. rewrite fmap_cons, HF. cbn [fst].
      apply Hfresh, list_elem_of_here. }
  cbn [Treelib.tag Treelib.bpointer Treelib.fpointer].
  rewrite fmap_app, flat_map_app.
  cbn [flat_map expected_nodes fmap list_fmap fst snd].
  by rewrite app_nil_r.
Qed.

Lemma create_root name :
  Treelib.create_node name name Treelib.empty
  = Treelib.Done (pasted name []).
Proof. done. Qed.

Lemma NoDup_front {A} (x : A) (l m r : list A) :
  NoDup (x :: l ++ m ++ r) →
  NoDup m ∧ ∀ k, k ∈ m → k ∉ x :: l.
Proof.
  rewrite app_assoc, app_comm_cons. intros (Hfront & _ & _)%NoDup_app.
  rewrite app_comm_cons in Hfront.
  apply NoDup_app in Hfront as (_ & Hdisj & Hm). split; [done|].
  intros k Hk Hold. by apply (Hdisj k).
Qed.

Lemma NoDup_join {A} (x : A) (l m : list A) :
  NoDup (x :: l) → NoDup m → (∀ k, k ∈ m → k ∉ x :: l) →
  NoDup (x :: l ++ m).
Proof.
  intros Hl Hm Hdisj. rewrite app_comm_cons. apply NoDup_app.
  split; [done|]. split; [|done]. intros k Hold Hnew. by apply (Hdisj k).
Qed.

Lemma names_snoc done c sub :
  names (Node (done ++ [(c, sub)])) = names (Node done) ++ c :: names sub.
Proof.
  rewrite names_app, names_cons.
  change (names (Node [])) with (@nil string). by rewrite app_nil_r.
Qed.

Lemma paste_children_spec name rest :
  Forall (λ kv, dict2treelib_spec kv.2) rest →
  ∀ done,
    NoDup (name :: names (Node done)) →
    (NoDup (name :: names (Node (done ++ rest))) →
     paste_children dict2treelib name rest (pasted name done)
     = Treelib.Done (pasted name (done ++ rest)))
    ∧ (¬ NoDup (name :: names (Node (done ++ rest))) →
       paste_children dict2treelib name rest (pasted name done)
       = Treelib.Raised Treelib.ValueError).
Proof.
  induction 1 as [|[c sub] rest Hsub _ IH]; intros done Hdone.
  - rewrite app_nil_r. split; [done|]. by intros [].
  - cbn [paste_children fst snd]. simpl in Hsub.
    assert (names (Node (done ++ (c, sub) :: rest))
            = names (Node done) ++ (c :: names sub) ++ names (Node rest))
      as Hnames by (by rewrite names_app, names_cons).
    rewrite Hnames.
    destruct (decide (NoDup (c :: names sub))) as [Hc|Hc].
    2:{ rewrite (proj2 (Hsub c) Hc). split; [|done].
        intros Hall. exfalso. by apply NoDup_front in Hall as [? _]. }
    rewrite (proj1 (Hsub c) Hc). cbn [mbind Treelib.result_bind].
    destruct (decide (Exists (λ k, k ∈ name :: names (Node done))
                        (c :: names sub))) as [Hclash|Hfresh].
    + apply Exists_exists in Hclash as (k & Hnew & Hold).
      rewrite paste_clash by eauto. split; [|done].
      intros Hall. exfalso. apply NoDup_front in Hall as [_ Hdisj].
      by apply (Hdisj k).
    + assert (∀ k, k ∈ c :: names sub → k ∉ name :: names (Node done))
        as Hdisj.
      { intros k Hk Hold. apply Hfresh, Exists_exists. eauto. }
      rewrite paste_fresh by done. cbn [mbind Treelib.result_bind].
      destruct (IH (done ++ [(c, sub)])) as [Hok Hbad].
      { rewrite names_snoc. by apply NoDup_join. }
      rewrite <-app_assoc in Hok, Hbad. cbn [app] in Hok, Hbad.
      rewrite Hnames in Hok, Hbad. done.
Qed.

Lemma dict2treelib_correct d : dict2treelib_spec d.
Proof.
  induction d as [kids IH] using tree_nested_ind. intros name.
  cbn [dict2treelib]. rewrite create_root. cbn [mbind Treelib.result_bind].
  destruct (paste_children_spec name kids IH []) as [Hok Hbad].
  { cbn. apply NoDup_singleton. }
  done.
Qed.

Lemma expected_nodes_bpointer d :
  ∀ parent name c p,
    (∃ n, (c, n) ∈ expected_nodes parent name d ∧ Treelib.bpointer n = Some p)
    ↔ (c = name ∧ parent = Some p) ∨ (c, p) ∈ tree_pairs name d.
Proof.
  induction d as [kids IH] using tree_nested_ind.
  intros parent name c p. rewrite Forall_forall in IH.
  cbn [expected_nodes tree_pairs]. rewrite elem_of_flat_map. split.
  - intros (n & [[= -> ->]|Hin]%elem_of_cons & Hp); [by left|]. right.
    apply elem_of_flat_map in Hin as (kv & Hkv & Hin).
    exists kv. split; [done|].
    destruct (proj1 (IH kv Hkv (Some name) kv.1 c p)) as [[-> [= ->]]|Hsub];
      [by eauto|apply list_elem_of_here|by apply list_elem_of_further].
  - intros [[-> ->]|(kv & Hkv & Hin)].
    + eexists. split; [apply list_elem_of_here|done].
    + destruct (proj2 (IH kv Hkv (Some name) kv.1 c p)) as (n & Hn & Hp).
      { apply elem_of_cons in Hin as [[= -> ->]|Hin]; [by left|by right]. }
      exists n. split; [|done]. apply list_elem_of_further.
      apply elem_of_flat_map. eauto.
Qed.

Lemma tree_pairs_child_named r t c q :
  (c, q) ∈ tree_pairs r t → c ∈ names t.
Proof.
  revert r. induction t as [kids IH] using tree_nested_ind.
  intros r. rewrite Forall_forall in IH. cbn [tree_pairs names].
  rewrite !elem_of_flat_map. intros (kv & Hkv & Hin). exists kv.
  split; [done|].
  apply elem_of_cons in Hin as [[= -> _]|Hin]; [apply list_elem_of_here|].
  apply list_elem_of_further. by eapply IH.
Qed.

(** X15: when no name occurs twice in the nested dictionary (the root name
    included), dict2treelib returns a tree rooted at [name] whose node
    identifiers are those names, keys before their contents, and in which
    the parent of every node is the name it is a key under. *)
Theorem dict2treelib_distinct_names (name : string) (d : tree) :
  NoDup (name :: names d) →
  ∃ T,
    dict2treelib name d = Treelib.Done T
    ∧ Treelib.root T = Some name
    ∧ PyDict.keys (Treelib.nodes T) = name :: names d
    ∧ (∀ n, (name, n) ∈ Treelib.nodes T → Treelib.bpointer n = None)
    ∧ (∀ c p, (c, p) ∈ tree_pairs name d
              ↔ ∃ n, (c, n) ∈ Treelib.nodes T ∧ Treelib.bpointer n = Some p).
Proof.
  intros Hnodup. eexists. split; [by apply dict2treelib_correct|].
  cbn [Treelib.root Treelib.nodes]. split; [done|].
  split; [apply keys_expected_nodes|]. split.
  - intros n Hn. destruct (Treelib.bpointer n) as [p|] eqn:Hp; [|done].
    exfalso.
    destruct (proj1 (expected_nodes_bpointer d None name name p))
      as [[_ ?]|Hpair]; [by eauto|done|].
    apply tree_pairs_child_named in Hpair.
    by apply NoDup_cons in Hnodup as [? _].
  - intros c p. rewrite expected_nodes_bpointer. split; [by right|].
    by intros [[_ ?]|?].
Qed.

Lemma dict2treelib_distinct_names_witness :
  ∃ T,
    dict2treelib "FIELD" ExTree.field = Treelib.Done T
    ∧ Treelib.root T = Some "FIELD"
    ∧ PyDict.keys (Treelib.nodes T) = "FIELD" :: names ExTree.field
    ∧ (∀ n, ("FIELD", n) ∈ Treelib.nodes T → Treelib.bpointer n = None)
    ∧ (∀ c p, (c, p) ∈ tree_pairs "FIELD" ExTree.field
              ↔ ∃ n, (c, n) ∈ Treelib.nodes T
                     ∧ Treelib.bpointer n = Some p).
Proof.
  apply (dict2treelib_distinct_names "FIELD" ExTree.field).
  apply (bool_decide_eq_true_1 (NoDup _)). reflexivity.
Defined.

(** X16: when a name occurs twice in the nested dictionary (or equals the
    root name), dict2treelib raises [ValueError] and returns no tree. *)
Theorem dict2treelib_repeated_name (name : string) (d : tree) :
  ¬ NoDup (name :: names d) →
  dict2treelib name d = Treelib.Raised Treelib.ValueError.
Proof. apply dict2treelib_correct. Qed.

Lemma dict2treelib_repeated_name_witness :
  dict2treelib "FIELD" ExTree.moved = Treelib.Raised Treelib.ValueError.
Proof.
  apply (dict2treelib_repeated_name "FIELD" ExTree.moved).
  apply (bool_decide_eq_false_1 (NoDup _)). reflexivity.
Defined.

Lemma NoDup_flat_map_same {A B} (f : A → list B) (l : list A) a b x :
  NoDup (flat_map f l) → a ∈ l → b ∈ l → x ∈ f a → x ∈ f b → a = b.
Proof.
  induction l as [|y l IH]; [by intros _ ?%elem_of_nil|].
  cbn [flat_map]. intros (Hy & Hdisj & Hl)%NoDup_app Ha Hb Hxa Hxb.
  apply elem_of_cons in Ha as [->|Ha], Hb as [->|Hb]; [done| | |by apply IH].
  - exfalso. apply (Hdisj x Hxa), elem_of_flat_map. eauto.
  - exfalso. apply (Hdisj x Hxb), elem_of_flat_map. eauto.
Qed.

Lemma NoDup_flat_map_part {A B} (f : A → list B) (l : list A) a :
  NoDup (flat_map f l) → a ∈ l → NoDup (f a).
Proof.
  induction l as [|y l IH]; [by intros _ ?%elem_of_nil|].
  cbn [flat_map]. intros (Hy & _ & Hl)%NoDup_app [->|Ha]%elem_of_cons; auto.
Qed.

(** With distinct names, a name is a key under one name only. *)
Lemma tree_pairs_one_parent t :
  ∀ r c p1 p2,
    NoDup (names t) →
    (c, p1) ∈ tree_pairs r t → (c, p2) ∈ tree_pairs r t → p1 = p2.
Proof.
  induction t as [kids IH] using tree_nested_ind.
  intros r c p1 p2. rewrite Forall_forall in IH. cbn [tree_pairs names].
  intros Hnodup (kv1 & Hkv1 & H1)%elem_of_flat_map
         (kv2 & Hkv2 & H2)%elem_of_flat_map.
  assert (∀ kv q, (c, q) ∈ (kv.1, r) :: tree_pairs kv.1 kv.2 →
                  c ∈ kv.1 :: names kv.2) as Hnamed.
  { intros kv q [[= -> _]|Hin]%elem_of_cons; [apply list_elem_of_here|].
    apply list_elem_of_further. by eapply tree_pairs_child_named. }
  assert (kv1 = kv2) as <-.
  { eapply (NoDup_flat_map_same (λ kv, kv.1 :: names kv.2)); eauto. }
  pose proof (NoDup_flat_map_part _ _ _ Hnodup Hkv1) as Hkid.
  cbn beta in Hkid. apply NoDup_cons in Hkid as [Hhead Hkid].
  apply elem_of_cons in H1 as [E1|H1], H2 as [E2|H2].
  - congruence.
  - exfalso. injection E1 as -> _.
    by apply tree_pairs_child_named in H2.
  - exfalso. injection E2 as -> _.
    by apply tree_pairs_child_named in H1.
  - by eapply IH.
Qed.

(** X17: when the rows of one date are acyclic (some ranking of the names
    puts every child strictly below its parent) and give a name two
    different parents, both at or below a root, the nested dictionary that
    gruptreedf2dict builds for that root is finite and holds the name twice,
    and dict2treelib raises [ValueError] on it.  The accumulator of deck2df
    keeps the old edge of a child that is given a new parent, so the rows of
    such a deck cannot be drawn as a tree. *)
Theorem dict2treelib_two_parents
    (df : list rec_dict) (rank : string → nat) (fuel : nat)
    (root c p1 p2 : string) :
  let edges := map (λ row, (CHILD row, PARENT row)) df in
  (∀ row, row ∈ df → (rank (CHILD row) < rank (PARENT row) < fuel)%nat) →
  (c, p1) ∈ edges → (c, p2) ∈ edges → p1 ≠ p2 →
  below edges root p1 → below edges root p2 →
  ∃ t,
    nested fuel (foldl link [] edges) root = Some t
    ∧ dict2treelib root t = Treelib.Raised Treelib.ValueError.
Proof.
  intros edges Hdf H1 H2 Hne Hb1 Hb2.
  assert (∀ c p, (c, p) ∈ edges → (rank c < rank p < fuel)%nat) as Hrank.
  { intros c' p' (row & [= -> ->] & Hrow)%list_elem_of_fmap. by apply Hdf. }
  assert (rank root < fuel)%nat as Hroot.
  { inversion Hb1 as [|? c' ? Hedge _]; subst.
    - apply Hrank in H1. lia.
    - apply Hrank in Hedge. lia. }
  destruct (nested_total _ edges (foldl_link_store_of edges) rank fuel Hrank
              fuel root Hroot) as [t Hnested].
  exists t. split; [done|].
  apply dict2treelib_correct. intros [_ Hnodup]%NoDup_cons.
  apply Hne. apply (tree_pairs_one_parent t root c p1 p2 Hnodup).
  - by apply (nested_pairs _ edges (foldl_link_store_of edges) _ _ _ Hnested).
  - by apply (nested_pairs _ edges (foldl_link_store_of edges) _ _ _ Hnested).
Qed.

Lemma dict2treelib_two_parents_witness :
  ∃ t,
    nested 3 (foldl link [] (map (λ row, (CHILD row, PARENT row)) Ex8.df))
      "FIELD" = Some t
    ∧ dict2treelib "FIELD" t = Treelib.Raised Treelib.ValueError.
Proof.
  apply (dict2treelib_two_parents Ex8.df Ex8.rank 3 "FIELD" "W1" "GRP1" "GRP2").
  - intros row Hrow. unfold Ex8.df, edge_rows in Hrow. simpl in Hrow.
    repeat (apply elem_of_cons in Hrow as [->|Hrow]; [vm_compute; lia|]).
    by apply elem_of_nil in Hrow.
  - apply list_elem_of_here.
  - do 3 apply list_elem_of_further. apply list_elem_of_here.
  - discriminate.
  - eapply below_step; [|apply below_here].
    apply list_elem_of_further, list_elem_of_here.
  - eapply below_step; [|apply below_here].
    do 2 apply list_elem_of_further. apply list_elem_of_here.
Defined.
